(** * Rail Decision Support API: the scheduling core of [main.py]

    A shallow embedding of the greedy scheduler of [src/main.py]
    ([compute_run_time_minutes], [parse_fixed_overrides],
    [generate_feasible_schedule], [what_if]) over the records of
    [src/schemas.py], and the properties the specification states about it.

    Conventions of the embedding.
    - A Python exception is a value: every fallible function returns
      [result A], either [OK a] or [Raise e].
    - [float] is the kernel's binary64, the same format as a Python float.
    - A [datetime] is its wall-clock reading in microseconds since
      0001-01-01T00:00:00 together with its UTC offset ([None] for a naive
      datetime); arithmetic raises [OverflowError] outside year 1..9999 and
      ordering a naive against an aware datetime raises [TypeError], as in
      Python.
    - A [dict] with string keys is a [gmap string _]; a [set] of strings a
      [gset string].
    - What the function reads from its environment is an argument: the
      sections returned by [get_domain_sections()], the clock read by
      [datetime.utcnow], and the library function [datetime.fromisoformat].
    - The audit writes ([create_document]) stand in a [try] that swallows
      every exception and do not touch the result; they are left out. *)

From Stdlib Require Import ZArith Floats Ascii Sorting.Sorted Permutation.
From stdpp Require Import gmap strings list fin_maps.

Open Scope Z_scope.

(** ** Exceptions and the error monad *)

Inductive exn :=
  | HTTPException (status_code : Z) (detail : string)
  | TypeError
  | ValueError
  | KeyError
  | OverflowError.

Inductive result (A : Type) :=
  | OK (a : A)
  | Raise (e : exn).
Arguments OK {A} a.
Arguments Raise {A} e.

#[global] Instance result_ret : MRet result := fun _ a => OK a.
#[global] Instance result_bind : MBind result := fun _ _ f m =>
  match m with
  | OK a => f a
  | Raise e => Raise e
  end.

(** Left fold of a fallible step: a [for] loop whose body may raise. *)
Fixpoint foldlM {A B} (f : A -> B -> result A) (a : A) (l : list B) : result A :=
  match l with
  | [] => OK a
  | b :: l' => a' ← f a b; foldlM f a' l'
  end.

(** ** [datetime] and [timedelta] *)

Record datetime := mk_datetime {
  dt_wall : Z;                 (* microseconds since 0001-01-01T00:00:00, local *)
  dt_utcoffset : option Z      (* tzinfo's offset in microseconds; None = naive *)
}.

Definition US_PER_MINUTE : Z := 60000000.
Definition US_PER_DAY : Z := 86400000000.
(** [datetime.max] is 9999-12-31T23:59:59.999999, day number 3652059. *)
Definition DT_MAX : Z := 3652059 * US_PER_DAY - 1.

Definition dt_aware (d : datetime) : bool :=
  match dt_utcoffset d with Some _ => true | None => false end.

(** The instant two datetimes of the same kind are ordered by: the wall
    clock for naive ones, the wall clock less the offset for aware ones. *)
Definition dt_instant (d : datetime) : Z :=
  match dt_utcoffset d with
  | Some off => dt_wall d - off
  | None => dt_wall d
  end.

(** [a == b]: never raises; a naive and an aware datetime are unequal. *)
Definition dt_eq (a b : datetime) : bool :=
  bool_decide (dt_aware a = dt_aware b) && (dt_instant a =? dt_instant b).

(** [a < b]: raises [TypeError] between a naive and an aware datetime. *)
Definition dt_lt (a b : datetime) : result bool :=
  if bool_decide (dt_aware a = dt_aware b)
  then OK (dt_instant a <? dt_instant b)
  else Raise TypeError.

(** [d + timedelta(minutes=n)]. The sum keeps the tzinfo; it raises
    [OverflowError] when the wall clock leaves [datetime.min, datetime.max]
    (a [timedelta] too large to build raises the same error, and the range
    of [timedelta] contains every difference of two datetimes). *)
Definition dt_add_minutes (d : datetime) (n : Z) : result datetime :=
  let w := dt_wall d + n * US_PER_MINUTE in
  if (0 <=? w) && (w <=? DT_MAX)
  then OK {| dt_wall := w; dt_utcoffset := dt_utcoffset d |}
  else Raise OverflowError.

(** Calendar constructor used by the examples: Python's [_ymd2ord]. *)
Definition is_leap (y : Z) : bool :=
  (y mod 4 =? 0) && (negb (y mod 100 =? 0) || (y mod 400 =? 0)).

Definition days_before_year (y : Z) : Z :=
  let y1 := y - 1 in y1 * 365 + y1 / 4 - y1 / 100 + y1 / 400.

Definition days_before_month (y m : Z) : Z :=
  nth (Z.to_nat (m - 1)) [0; 31; 59; 90; 120; 151; 181; 212; 243; 273; 304; 334] 0
  + (if (2 <? m) && is_leap y then 1 else 0).

Definition ymd2ord (y m d : Z) : Z := days_before_year y + days_before_month y m + d.

Definition wall_clock (y m d hh mm : Z) : Z :=
  (ymd2ord y m d - 1) * US_PER_DAY + (hh * 60 + mm) * US_PER_MINUTE.

(** [datetime(y, m, d, hh, mm)] and the same with [tzinfo=timezone.utc]. *)
Definition naive (y m d hh mm : Z) : datetime :=
  {| dt_wall := wall_clock y m d hh mm; dt_utcoffset := None |}.
Definition utc (y m d hh mm : Z) : datetime :=
  {| dt_wall := wall_clock y m d hh mm; dt_utcoffset := Some 0 |}.

(** ** Python's float built-ins used by the estimator *)

(** [int(x)]: truncation toward zero; [OverflowError] on an infinity,
    [ValueError] on a NaN. A finite float is [m * 2^e] with a sign; a shift
    to the left by a negative [e] is a shift to the right. *)
Definition py_int (x : float) : result Z :=
  match Prim2SF x with
  | S754_zero _ => OK 0
  | S754_infinity _ => Raise OverflowError
  | S754_nan => Raise ValueError
  | S754_finite s m e =>
      let a := Z.shiftl (Z.pos m) e in
      OK (if s then - a else a)
  end.


(** [min(a, b)] keeps [a] unless [b < a]; [max(a, b)] keeps [a] unless [b > a]. *)
Definition py_min (a b : float) : float := if PrimFloat.ltb b a then b else a.
Definition py_max (a b : float) : float := if PrimFloat.ltb a b then b else a.

(** [x or y] for an optional float: [None] and zero (of either sign) are falsy. *)
Definition py_or (x : option float) (y : float) : float :=
  match x with
  | Some v => if PrimFloat.eqb v 0 then y else v
  | None => y
  end.

(** ** schemas.py *)

Inductive service_type := passenger | freight | maintenance.
Inductive train_status := scheduled | running | delayed | completed | cancelled.
Inductive incident_type :=
  block | speed_restriction | weather | signal_failure | rolling_stock.

(** [schemas.Section]. *)
Record RailSection := {
  sec_id : string;
  sec_name : string;
  length_km : float;
  single_track : bool;
  sec_max_speed_kmh : float;
  crossing_loops : list string
}.

Record Train := {
  tr_id : string;
  tr_service_type : service_type;
  priority : Z;
  length_m : option Z;
  tr_max_speed_kmh : option float;
  origin : string;
  destination : string;
  planned_departure : datetime;
  planned_arrival : option datetime;
  route : list string;
  status : train_status
}.

Record Incident := {
  inc_id : string;
  inc_type : incident_type;
  inc_section_id : option string;
  start_time : datetime;
  end_time : option datetime;
  details : list (string * string)
}.

Record ScheduleLeg := {
  train_id : string;
  section_id : string;
  enter_time : datetime;
  exit_time : datetime;
  meet_pass_at : option string
}.

(** A value of the [objective] dict: a Python float or int. *)
Inductive number :=
  | Float (x : float)
  | Int (n : Z).

Record Schedule := {
  scenario_id : option string;
  legs : list ScheduleLeg;
  objective : gmap string number;
  sched_created_at : datetime
}.

(** A field of an override record: a [str], or any other value, kept as the
    text [str()] gives for it. *)
Inductive field :=
  | Str (s : string)
  | NotStr (text : string).

(** An element of [fixed_enters]: a dict, or a value that cannot be
    subscripted by a string. *)
Inductive entry :=
  | EntryDict (d : gmap string field)
  | EntryOther.

(** A value of the [overrides] dict as the resolver sees it: an iterable
    with the elements it yields, or a value [for] cannot iterate. *)
Inductive override_value :=
  | Iterable (l : list entry)
  | NotIterable.

Record Scenario := {
  sc_id : option string;
  sc_name : string;
  description : option string;
  trains : list Train;
  incidents : list Incident;
  overrides : gmap string override_value;
  created_by : option string;
  sc_created_at : datetime
}.

(** ** main.py *)

Definition SAFE_HEADWAY_MIN : Z := 5.

Definition compute_run_time_minutes (section : RailSection) (train : Train) : result Z :=
  let speed := py_min (sec_max_speed_kmh section)
                      (py_or (tr_max_speed_kmh train) (sec_max_speed_kmh section)) in
  let hours := (length_km section / py_max speed 1)%float in
  k ← py_int (hours * 60)%float;
  OK (Z.max 1 k).

(** *** [parse_fixed_overrides] *)

(** [f"{x}"]. *)
Definition py_str (x : field) : string :=
  match x with Str s => s | NotStr text => text end.

(** [entry[name]]. *)
Definition subscript (e : entry) (name : string) : result field :=
  match e with
  | EntryOther => Raise TypeError
  | EntryDict d =>
      match d !! name with
      | Some v => OK v
      | None => Raise KeyError
      end
  end.

(** [f"{tr_id}::{sec_id}"], the key of the override table. *)
Definition override_key (tid sid : string) : string := tid +:+ "::" +:+ sid.

Section Resolver.

(** [datetime.fromisoformat] on a string: [None] stands for its [ValueError]. *)
Variable fromisoformat : string -> option datetime.

Definition py_fromisoformat (x : field) : result datetime :=
  match x with
  | NotStr _ => Raise TypeError
  | Str s =>
      match fromisoformat s with
      | Some d => OK d
      | None => Raise ValueError
      end
  end.

(** The two statements of the loop body, up to the store into [fixed]. *)
Definition parse_entry (e : entry) : result (string * datetime) :=
  tid ← subscript e "train_id";
  sid ← subscript e "section_id";
  let key := override_key (py_str tid) (py_str sid) in
  raw ← subscript e "enter_time";
  t ← py_fromisoformat raw;
  OK (key, t).

(** The [for] loop inside the [try]: the first exception leaves the loop,
    and [fixed] keeps what was stored before it. *)
Fixpoint fixed_loop (fixed : gmap string datetime) (l : list entry) : gmap string datetime :=
  match l with
  | [] => fixed
  | e :: l' =>
      match parse_entry e with
      | OK (key, t) => fixed_loop (<[key := t]> fixed) l'
      | Raise _ => fixed
      end
  end.

Definition parse_fixed_overrides (ov : gmap string override_value) : gmap string datetime :=
  match ov !! "fixed_enters" with
  | None => ∅
  | Some NotIterable => ∅
  | Some (Iterable l) => fixed_loop ∅ l
  end.

(** *** [generate_feasible_schedule] *)

(** [(-a.priority, a.planned_departure) < (-b.priority, b.planned_departure)]:
    tuples are compared at the first component where they differ. *)
Definition sort_key_lt (a b : Train) : result bool :=
  if negb (- priority a =? - priority b) then OK (- priority a <? - priority b)
  else if negb (dt_eq (planned_departure a) (planned_departure b))
       then dt_lt (planned_departure a) (planned_departure b)
       else OK false.

(** [sorted]: a stable sort that only asks [x < y]. Each element is put
    behind the elements of the sorted prefix that it is not less than; an
    exception of the comparison ends the sort. Whether the sort of the
    trains raises does not depend on which pairs an algorithm compares
    ([trains_sorted_Raise_iff]). *)
Fixpoint insort {A} (lt : A -> A -> result bool) (x : A) (s : list A) : result (list A) :=
  match s with
  | [] => OK [x]
  | y :: s' =>
      b ← lt x y;
      if b : bool then OK (x :: y :: s') else r ← insort lt x s'; OK (y :: r)
  end.

Definition py_sorted {A} (lt : A -> A -> result bool) (l : list A) : result (list A) :=
  foldlM (fun acc x => insort lt x acc) [] l.

(** The two accumulators of the scheduling loops. *)
Record sched_state := {
  st_legs : list ScheduleLeg;
  st_last_exit : gmap string datetime
}.

Definition unknown_section (sid : string) : exn :=
  HTTPException 400 ("Unknown section " +:+ sid).

(** The headway test of one section: [prev_exit + timedelta(...)] is
    evaluated before the comparison, and once more, to the same value, when
    the enter time is shifted. *)
Definition enforce_headway (prev : option datetime) (enter : datetime) : result datetime :=
  match prev with
  | None => OK enter
  | Some prev_exit =>
      bound ← dt_add_minutes prev_exit SAFE_HEADWAY_MIN;
      shift ← dt_lt enter bound;
      if shift : bool then OK bound else OK enter
  end.

Section Sequencer.

Variable sections_map : gmap string RailSection.
Variable fixed_enters : gmap string datetime.

(** The body of the inner loop, for one section id of the route. *)
Definition schedule_section (tr : Train) (acc : sched_state * datetime) (sid : string)
  : result (sched_state * datetime) :=
  let '(st, current_time) := acc in
  match sections_map !! sid with
  | None => Raise (unknown_section sid)
  | Some sec =>
      run_min ← compute_run_time_minutes sec tr;
      let candidate := default current_time (fixed_enters !! override_key (tr_id tr) sid) in
      enter ← (if single_track sec
               then enforce_headway (st_last_exit st !! sid) candidate
               else OK candidate);
      exit ← dt_add_minutes enter run_min;
      let leg := {| train_id := tr_id tr; section_id := sid;
                    enter_time := enter; exit_time := exit; meet_pass_at := None |} in
      OK ({| st_legs := st_legs st ++ [leg];
             st_last_exit := <[sid := exit]> (st_last_exit st) |}, exit)
  end.

(** The body of the outer loop, for one train. *)
Definition schedule_train (st : sched_state) (tr : Train) : result sched_state :=
  acc ← foldlM (schedule_section tr) (st, planned_departure tr) (route tr);
  OK acc.1.

Definition schedule_trains (st : sched_state) (ts : list Train) : result sched_state :=
  foldlM schedule_train st ts.

End Sequencer.

(** [{s.id: s for s in ...}]: a later section replaces an earlier one. *)
Definition index_sections (l : list RailSection) : gmap string RailSection :=
  foldl (fun m s => <[sec_id s := s]> m) ∅ l.

(** [{t.id: (t.route[-1] if t.route else None) for t in scenario.trains}]. *)
Definition last_sections (ts : list Train) : gmap string (option string) :=
  foldl (fun m t => <[tr_id t := last (route t)]> m) ∅ ts.

(** [set(l.train_id for l in legs if last_sections.get(l.train_id) == l.section_id)]. *)
Definition finished_trains (last : gmap string (option string)) (ls : list ScheduleLeg)
  : gset string :=
  list_to_set (train_id <$>
    filter (fun l => last !! train_id l = Some (Some (section_id l))) ls).

Definition kpis_of (ts : list Train) (ls : list ScheduleLeg) : gmap string number :=
  let throughput := Z.of_nat (size (finished_trains (last_sections ts) ls)) in
  <["throughput" := Int throughput]> (<["total_delay_min" := Float 0]> ∅).

Definition empty_state : sched_state := {| st_legs := []; st_last_exit := ∅ |}.

(** [domain_sections] is what [get_domain_sections()] returns and [now] what
    [datetime.utcnow] reads when the [Schedule] is built. *)
Definition generate_feasible_schedule
    (domain_sections : list RailSection) (now : datetime) (scenario : Scenario)
  : result Schedule :=
  let sections_map := index_sections domain_sections in
  trains_sorted ← py_sorted sort_key_lt (trains scenario);
  let fixed_enters := parse_fixed_overrides (overrides scenario) in
  st ← schedule_trains sections_map fixed_enters empty_state trains_sorted;
  OK {| scenario_id := sc_id scenario;
        legs := st_legs st;
        objective := kpis_of (trains scenario) (st_legs st);
        sched_created_at := now |}.

(** *** [what_if] *)

Record WhatIfRequest := {
  wi_scenario : Scenario;
  delay_train_id : option string;
  delay_minutes : Z
}.

Definition set_planned_departure (t : Train) (d : datetime) : Train :=
  {| tr_id := tr_id t; tr_service_type := tr_service_type t; priority := priority t;
     length_m := length_m t; tr_max_speed_kmh := tr_max_speed_kmh t;
     origin := origin t; destination := destination t;
     planned_departure := d; planned_arrival := planned_arrival t;
     route := route t; status := status t |}.

Definition set_trains (sc : Scenario) (ts : list Train) : Scenario :=
  {| sc_id := sc_id sc; sc_name := sc_name sc; description := description sc;
     trains := ts; incidents := incidents sc; overrides := overrides sc;
     created_by := created_by sc; sc_created_at := sc_created_at sc |}.

(** The [for ... break] loop: the first train with the id is delayed. *)
Fixpoint delay_first (tid : string) (minutes : Z) (ts : list Train) : result (list Train) :=
  match ts with
  | [] => OK []
  | t :: ts' =>
      if String.eqb (tr_id t) tid
      then d ← dt_add_minutes (planned_departure t) minutes;
           OK (set_planned_departure t d :: ts')
      else r ← delay_first tid minutes ts'; OK (t :: r)
  end.

(** The scenario handed to the scheduler: [req.delay_train_id and
    req.delay_minutes] is true for a non-empty id and a non-zero delay. *)
Definition apply_delay (req : WhatIfRequest) : result Scenario :=
  match delay_train_id req with
  | Some tid =>
      if negb (String.eqb tid "") && negb (delay_minutes req =? 0)
      then ts ← delay_first tid (delay_minutes req) (trains (wi_scenario req));
           OK (set_trains (wi_scenario req) ts)
      else OK (wi_scenario req)
  | None => OK (wi_scenario req)
  end.

Definition what_if (domain_sections : list RailSection) (now : datetime)
    (req : WhatIfRequest) : result (Schedule * string) :=
  sc ← apply_delay req;
  sched ← generate_feasible_schedule domain_sections now sc;
  OK (sched, "Scenario re-optimized with applied delay.").

End Resolver.

(** *** [optimize] *)

Definition optimize (fromisoformat : string -> option datetime)
    (domain_sections : list RailSection) (now : datetime) (scenario : Scenario)
  : result (Schedule * string) :=
  sched ← generate_feasible_schedule fromisoformat domain_sections now scenario;
  OK (sched, "Generated a conflict-minimized timetable using priority-first sequencing, safety headways, and controller overrides where provided.").

(** ** Vocabulary of the specification *)

(** [a <= b] holds in Python: the two are of the same kind and ordered. *)
Definition dt_le (a b : datetime) : Prop :=
  dt_aware a = dt_aware b /\ dt_instant a <= dt_instant b.

(** [b >= a + timedelta(minutes=n)] as instants of the same kind. *)
Definition dt_apart (n : Z) (a b : datetime) : Prop :=
  dt_aware a = dt_aware b /\ dt_instant a + n * US_PER_MINUTE <= dt_instant b.



(** [b] is the run of legs emitted for [tr]: one leg per section of the
    route, in route order, every one under the train's id. *)
Definition emitted_for (tr : Train) (b : list ScheduleLeg) : Prop :=
  section_id <$> b = route tr /\ Forall (fun l => train_id l = tr_id tr) b.

(** Starting at [ct], each leg of [b] without a fixed-enter override is
    entered no earlier than the previous leg was left. *)
Fixpoint chained (fixed_enters : gmap string datetime) (tid : string)
    (ct : datetime) (b : list ScheduleLeg) : Prop :=
  match b with
  | [] => True
  | l :: b' =>
      (fixed_enters !! override_key tid (section_id l) = None -> dt_le ct (enter_time l)) /\
      chained fixed_enters tid (exit_time l) b'
  end.

(** The commitment order: higher priority first, and among equal
    priorities the earlier planned departure first. *)
Definition commits_before (a b : Train) : Prop :=
  priority b < priority a \/
  (priority a = priority b /\ dt_le (planned_departure a) (planned_departure b)).

(** The throughput in the words of the specification: the number of
    distinct trains whose last emitted leg is on the last section of their
    route. The legs of a train are those that carry its id. *)
Definition last_leg_of (tid : string) (ls : list ScheduleLeg) : option ScheduleLeg :=
  last (filter (fun l => train_id l = tid) ls).

Definition completed_route (ls : list ScheduleLeg) (t : Train) : Prop :=
  is_Some (last (route t)) /\
  section_id <$> last_leg_of (tr_id t) ls = last (route t).

#[global] Instance completed_route_dec ls t : Decision (completed_route ls t).
Proof. unfold completed_route. apply _. Defined.

Definition spec_throughput (ts : list Train) (ls : list ScheduleLeg) : Z :=
  Z.of_nat (size (list_to_set (tr_id <$> filter (completed_route ls) ts) : gset string)).





(** A float that is above zero, or a NaN. *)
Definition sf_positive_or_nan (x : spec_float) : Prop :=
  match x with
  | S754_finite false _ _ | S754_infinity false | S754_nan => True
  | _ => False
  end.

(** The exceptions of the sort and of the time and float arithmetic. *)
Definition arithmetic_error (e : exn) : Prop :=
  e = TypeError \/ e = OverflowError \/ e = ValueError.

(** Two trains of equal priority whose planned departures cannot be
    ordered: one is naive, the other aware. *)
Definition incomparable (a b : Train) : Prop :=
  priority a = priority b /\
  dt_aware (planned_departure a) <> dt_aware (planned_departure b).

(** Every section id of a route is in the directory. *)
Definition route_known (sections_map : gmap string RailSection) (rt : list string) : Prop :=
  Forall (fun sid => is_Some (sections_map !! sid)) rt.

(** The two loops up to the lookup of one section: the trains [pre] in
    full, then the sections [r1] at the head of the route of [tr]. *)
Definition steps_before (sections_map : gmap string RailSection)
    (fixed_enters : gmap string datetime) (pre : list Train) (tr : Train)
    (r1 : list string) : result (sched_state * datetime) :=
  st ← schedule_trains sections_map fixed_enters empty_state pre;
  foldlM (schedule_section sections_map fixed_enters tr) (st, planned_departure tr) r1.

(** Two trains that agree on the fields the scheduler reads. *)
Definition same_train_inputs (a b : Train) : Prop :=
  tr_id a = tr_id b /\ priority a = priority b /\
  tr_max_speed_kmh a = tr_max_speed_kmh b /\
  planned_departure a = planned_departure b /\ route a = route b.

(** Two sections that agree on the fields the scheduler reads. *)
Definition same_section_inputs (a b : RailSection) : Prop :=
  length_km a = length_km b /\ single_track a = single_track b /\
  sec_max_speed_kmh a = sec_max_speed_kmh b.

(** Two directories that hold the same ids and, under each id, sections of
    the same length, track kind and speed limit. *)
Definition same_directory (m1 m2 : gmap string RailSection) : Prop :=
  forall sid, option_Forall2 same_section_inputs (m1 !! sid) (m2 !! sid).

(** Two outcomes: the same exception, or two values related by [R]. *)
Definition same_outcome {A B} (R : A -> B -> Prop) (m1 : result A) (m2 : result B) : Prop :=
  match m1, m2 with
  | OK a, OK b => R a b
  | Raise e1, Raise e2 => e1 = e2
  | _, _ => False
  end.

(** ** The scenarios of the examples *)

(** The default sections [get_domain_sections] seeds an empty store with. *)
Definition S1 : RailSection :=
  {| sec_id := "S1"; sec_name := "Alpha-Loop"; length_km := 10; single_track := true;
     sec_max_speed_kmh := 110; crossing_loops := ["A"] |}.
Definition S2 : RailSection :=
  {| sec_id := "S2"; sec_name := "Beta-Plain"; length_km := 18; single_track := true;
     sec_max_speed_kmh := 120; crossing_loops := ["B"] |}.
Definition S3 : RailSection :=
  {| sec_id := "S3"; sec_name := "Gamma-Hill"; length_km := 12; single_track := true;
     sec_max_speed_kmh := 90; crossing_loops := ["C"] |}.
Definition default_sections : list RailSection := [S1; S2; S3].

(** A train with the defaults of [schemas.Train] for the optional fields. *)
Definition a_train (tid : string) (prio : Z) (dep : datetime) (rt : list string) : Train :=
  {| tr_id := tid; tr_service_type := passenger; priority := prio; length_m := None;
     tr_max_speed_kmh := None; origin := "X"; destination := "Y";
     planned_departure := dep; planned_arrival := None; route := rt;
     status := scheduled |}.


Definition a_scenario (ts : list Train) (ov : gmap string override_value) : Scenario :=
  {| sc_id := Some "sc"; sc_name := "demo"; description := None; trains := ts;
     incidents := []; overrides := ov; created_by := None;
     sc_created_at := naive 2024 1 1 7 0 |}.

(** [datetime.fromisoformat] on the two strings the examples use; the
    examples pass no other string to it. *)
Definition sample_fromisoformat (s : string) : option datetime :=
  if String.eqb s "2024-01-01T08:00:00" then Some (naive 2024 1 1 8 0)
  else if String.eqb s "2024-01-01T08:30:00" then Some (naive 2024 1 1 8 30)
  else None.

Definition an_override (tid sid time : string) : entry :=
  EntryDict (<["train_id" := Str tid]> (<["section_id" := Str sid]>
            (<["enter_time" := Str time]> ∅))).

Definition fixed_enters_of (l : list entry) : gmap string override_value :=
  <["fixed_enters" := Iterable l]> ∅.

Definition t0 : datetime := naive 2024 1 1 8 0.
Definition clock0 : datetime := naive 2024 1 1 7 30.
Definition clock1 : datetime := naive 2024 1 1 7 31.

(** Scenario 1 of the specification: two trains over S1 at the same time. *)
Definition train_A : Train := a_train "A" 8 t0 ["S1"].
Definition train_B : Train := a_train "B" 5 t0 ["S1"].
Definition scenario_1 : Scenario := a_scenario [train_B; train_A] ∅.

Definition a_leg (tid sid : string) (enter exit : datetime) : ScheduleLeg :=
  {| train_id := tid; section_id := sid; enter_time := enter; exit_time := exit;
     meet_pass_at := None |}.

Definition legs_1 : list ScheduleLeg :=
  [a_leg "A" "S1" t0 (naive 2024 1 1 8 5);
   a_leg "B" "S1" (naive 2024 1 1 8 10) (naive 2024 1 1 8 15)].

Definition legs_fixed : list ScheduleLeg :=
  [a_leg "A" "S1" t0 (naive 2024 1 1 8 5);
   a_leg "A" "S2" t0 (naive 2024 1 1 8 9)].


(** Scenario 3 of the specification, late in the last representable day:
    the route names S9, which the directory does not hold. *)
Definition train_late : Train := a_train "A" 5 (naive 9999 12 31 23 58) ["S1"; "S9"].
Definition scenario_late : Scenario := a_scenario [train_late] ∅.

(** A what-if request that names a train by the empty string, its id. *)
Definition train_anonymous : Train := a_train "" 5 t0 ["S1"].
Definition request_empty_id : WhatIfRequest :=
  {| wi_scenario := a_scenario [train_anonymous] ∅;
     delay_train_id := Some ""; delay_minutes := 15 |}.

(** A what-if request that delays train B of Scenario 1 by 15 minutes. *)
Definition request_delay_B : WhatIfRequest :=
  {| wi_scenario := scenario_1; delay_train_id := Some "B"; delay_minutes := 15 |}.

(** Two trains under one id: the first crosses S1, the second has no route. *)
Definition train_X1 : Train := a_train "X" 5 t0 ["S1"].
Definition train_X0 : Train := a_train "X" 5 t0 [].
Definition scenario_twins : Scenario := a_scenario [train_X1; train_X0] ∅.


(** Two override records: the first lacks its section and its time, the
    second is complete. *)
Definition entry_malformed : entry := EntryDict (<["train_id" := Str "A"]> ∅).
Definition entry_B : entry := an_override "B" "S1" "2024-01-01T08:30:00".

(** A train without a route. *)
Definition train_idle : Train := a_train "T" 9 t0 [].

(** Scenario 2 of the specification: the enter time of A on S1 fixed at
    08:30. *)
Definition scenario_2 : Scenario :=
  a_scenario [train_B; train_A] (fixed_enters_of [an_override "A" "S1" "2024-01-01T08:30:00"]).

(** A train without a route whose planned departure carries a UTC offset,
    beside a train of the same priority whose planned departure does not. *)
Definition train_idle_utc : Train := a_train "T" 8 (utc 2024 1 1 8 0) [].
Definition scenario_mixed : Scenario := a_scenario [train_A; train_idle_utc] ∅.

(** Scenario 3 again, with a planned departure that carries a UTC offset
    behind a train whose planned departure does not. *)
Definition train_B_utc : Train := a_train "B" 5 (utc 2024 1 1 8 0) ["S1"; "S9"].
Definition scenario_kinds : Scenario := a_scenario [train_A; train_B_utc] ∅.

(** What-if requests on two trains under the id X, and on a train that
    leaves in the last minutes of the last representable day. *)
Definition train_X2 : Train := a_train "X" 5 (naive 2024 1 1 9 0) ["S2"].
Definition request_shared_id : WhatIfRequest :=
  {| wi_scenario := a_scenario [train_X1; train_X2] ∅;
     delay_train_id := Some "X"; delay_minutes := 15 |}.
Definition request_overflow : WhatIfRequest :=
  {| wi_scenario := scenario_late; delay_train_id := Some "A"; delay_minutes := 15 |}.

(** Scenario 1 as a second request may carry it: another name and
    description, other service types, origins and statuses; and the
    directory as a second read may list it: in another order, under other
    names, behind a stale record of S1 that the index drops. *)
Definition train_A_running : Train :=
  {| tr_id := "A"; tr_service_type := freight; priority := 8; length_m := Some 400;
     tr_max_speed_kmh := None; origin := "P"; destination := "Q";
     planned_departure := t0; planned_arrival := Some (naive 2024 1 1 9 0);
     route := ["S1"]; status := running |}.
Definition train_B_delayed : Train :=
  {| tr_id := "B"; tr_service_type := maintenance; priority := 5; length_m := None;
     tr_max_speed_kmh := None; origin := "Q"; destination := "P";
     planned_departure := t0; planned_arrival := None;
     route := ["S1"]; status := delayed |}.
Definition scenario_1_again : Scenario :=
  {| sc_id := Some "sc"; sc_name := "replay"; description := Some "second request";
     trains := [train_B_delayed; train_A_running]; incidents := [];
     overrides := fixed_enters_of []; created_by := Some "controller";
     sc_created_at := naive 2024 1 2 7 0 |}.
Definition S1_stale : RailSection :=
  {| sec_id := "S1"; sec_name := "Alpha-Old"; length_km := 99; single_track := false;
     sec_max_speed_kmh := 10; crossing_loops := [] |}.
Definition S1_renamed : RailSection :=
  {| sec_id := "S1"; sec_name := "Alpha"; length_km := 10; single_track := true;
     sec_max_speed_kmh := 110; crossing_loops := [] |}.
Definition sections_relisted : list RailSection := [S1_stale; S3; S2; S1_renamed].

(** Scenario 3 of the specification: B is routed over S9 after S1. *)
Definition train_B19 : Train := a_train "B" 5 t0 ["S1"; "S9"].
Definition scenario_3 : Scenario := a_scenario [train_A; train_B19] ∅.

(** ** Vocabulary of the further properties *)

(** What the loop body recorded in leg [l] for train [tr] when the train's
    clock stood at [ct]: the section is in the directory, the leg lasts the
    estimated minutes, and it is entered at the candidate time (the
    override, or [ct]) or, on a single-track section only, later. *)
Definition leg_of (sections_map : gmap string RailSection)
    (fixed_enters : gmap string datetime) (tr : Train) (ct : datetime)
    (l : ScheduleLeg) : Prop :=
  train_id l = tr_id tr /\ meet_pass_at l = None /\
  exists sec m,
    sections_map !! section_id l = Some sec /\
    compute_run_time_minutes sec tr = OK m /\
    dt_add_minutes (enter_time l) m = OK (exit_time l) /\
    (enter_time l = default ct (fixed_enters !! override_key (tr_id tr) (section_id l)) \/
     (single_track sec = true /\
      dt_le (default ct (fixed_enters !! override_key (tr_id tr) (section_id l)))
            (enter_time l))).

(** The legs of a train, each recorded at the exit time of the one before. *)
Fixpoint traced (sections_map : gmap string RailSection)
    (fixed_enters : gmap string datetime) (tr : Train) (ct : datetime)
    (b : list ScheduleLeg) : Prop :=
  match b with
  | [] => True
  | l :: b' =>
      leg_of sections_map fixed_enters tr ct l /\
      traced sections_map fixed_enters tr (exit_time l) b'
  end.

(** A section id with a recorded last exit has a leg, and a leg with an
    override that is the first on its section is entered at the override. *)
Definition first_use_inv (fixed_enters : gmap string datetime) (st : sched_state) : Prop :=
  (forall sid, is_Some (st_last_exit st !! sid) ->
     exists l, l ∈ st_legs st /\ section_id l = sid) /\
  (forall (j : nat) l f, st_legs st !! j = Some l ->
     (forall (i : nat) l', (i < j)%nat -> st_legs st !! i = Some l' ->
        section_id l' <> section_id l) ->
     fixed_enters !! override_key (train_id l) (section_id l) = Some f ->
     enter_time l = f).

(** Two trains that the sort cannot tell apart: equal priority and equal
    planned departure. *)
Definition same_key (a b : Train) : Prop :=
  priority a = priority b /\ dt_eq (planned_departure a) (planned_departure b) = true.

#[global] Instance same_key_dec a b : Decision (same_key a b).
Proof. unfold same_key. apply _. Defined.

(** A datetime Python can hold: its wall clock is within year 1..9999. *)
Definition dt_valid (d : datetime) : Prop := 0 <= dt_wall d <= DT_MAX.

(** A string without a colon. *)
Fixpoint colon_free (s : string) : Prop :=
  match s with
  | EmptyString => True
  | String c s' => c <> ":"%char /\ colon_free s'
  end.

(** The entries of a list that are well-formed, with their key and time. *)
Definition parsed (fromisoformat : string -> option datetime) (l : list entry)
  : list (string * datetime) :=
  omap (fun e => match parse_entry fromisoformat e with
                 | OK kt => Some kt
                 | Raise _ => None
                 end) l.



(** A third train, as low in priority and as early as B. *)
Definition train_C : Train := a_train "C" 5 t0 ["S1"].

(** A float that is above zero. *)
Definition sf_positive (x : spec_float) : Prop :=
  match x with
  | S754_finite false _ _ | S754_infinity false => True
  | _ => False
  end.

(** A section of no length, and a what-if request without a train id. *)
Definition section_point : RailSection :=
  {| sec_id := "P"; sec_name := "Point"; length_km := 0; single_track := true;
     sec_max_speed_kmh := 60; crossing_loops := [] |}.
Definition request_no_id : WhatIfRequest :=
  {| wi_scenario := scenario_1; delay_train_id := None; delay_minutes := 15 |}.
Definition train_B9 : Train := a_train "B" 5 t0 ["S9"; "S1"].

(** The recorded last exit of a section is the exit time of the latest leg
    on it, and a leg with an override is entered at the override or the
    headway after the exit of the latest earlier leg on its section. *)
Definition shift_inv (fixed_enters : gmap string datetime) (st : sched_state) : Prop :=
  (forall sid, st_last_exit st !! sid
     = exit_time <$> last (filter (fun l => section_id l = sid) (st_legs st))) /\
  (forall (j : nat) l f, st_legs st !! j = Some l ->
     fixed_enters !! override_key (train_id l) (section_id l) = Some f ->
     enter_time l = f \/
     exists l', last (filter (fun l' => section_id l' = section_id l)
                        (take j (st_legs st))) = Some l' /\
                dt_add_minutes (exit_time l') SAFE_HEADWAY_MIN = OK (enter_time l)).

(** Scenario 1 with the enter time of B on S1 fixed at 08:00. *)
Definition scenario_shift : Scenario :=
  a_scenario [train_B; train_A] (fixed_enters_of [an_override "B" "S1" "2024-01-01T08:00:00"]).

(** * Properties *)

(** ** The error monad and the loops *)

Lemma bind_OK {A B} (f : A -> result B) (m : result A) (b : B) :
  m ≫= f = OK b -> exists a, m = OK a /\ f a = OK b.
Proof. destruct m as [a|e]; simpl; [eauto | discriminate]. Qed.

Lemma bind_Raise {A B} (f : A -> result B) (m : result A) (e : exn) :
  m ≫= f = Raise e -> m = Raise e \/ exists a, m = OK a /\ f a = Raise e.
Proof. destruct m as [a|e']; simpl; [eauto | intros [= ->]; auto]. Qed.

(** Inverts a hypothesis [x ← m; k = OK b]. *)
Ltac bind_inv H :=
  let a := fresh "a" in
  let Ha := fresh "Ha" in
  apply bind_OK in H; destruct H as (a & Ha & H).

Lemma foldlM_app {A B} (f : A -> B -> result A) (a : A) (l1 l2 : list B) :
  foldlM f a (l1 ++ l2) = foldlM f a l1 ≫= fun a' => foldlM f a' l2.
Proof.
  revert a. induction l1 as [|b l1 IH]; intros a; simpl; [reflexivity|].
  destruct (f a b) as [a'|e]; simpl; [apply IH | reflexivity].
Qed.

(** A property kept by every successful step holds after the loop. *)
Lemma foldlM_invariant {A B} (P : A -> Prop) (f : A -> B -> result A) (l : list B) :
  (forall a b a', b ∈ l -> P a -> f a b = OK a' -> P a') ->
  forall a a', P a -> foldlM f a l = OK a' -> P a'.
Proof.
  induction l as [|b l IH]; intros Hstep a a' Ha H; simpl in H.
  - by injection H as <-.
  - bind_inv H. eapply IH; [ | | exact H].
    + intros ? ? ? Hin. apply Hstep. by right.
    + eapply Hstep; [by left | exact Ha | exact Ha0].
Qed.

(** A loop raises only what one of its steps raises. *)
Lemma foldlM_Raise {A B} (f : A -> B -> result A) (l : list B) (a : A) (e : exn) :
  foldlM f a l = Raise e -> exists a' b, b ∈ l /\ f a' b = Raise e.
Proof.
  revert a. induction l as [|b l IH]; intros a H; simpl in H; [discriminate|].
  apply bind_Raise in H as [H | (a' & _ & H)].
  - exists a, b. split; [by left | done].
  - destruct (IH _ H) as (a'' & b' & Hin & Hb). exists a'', b'. split; [by right | done].
Qed.

(** ** Datetimes *)

Lemma dt_add_minutes_OK d n d' :
  dt_add_minutes d n = OK d' ->
  dt_utcoffset d' = dt_utcoffset d /\ dt_wall d' = dt_wall d + n * US_PER_MINUTE /\
  0 <= dt_wall d' <= DT_MAX.
Proof.
  unfold dt_add_minutes. case_match eqn:Hr; [|discriminate].
  intros [= <-]; simpl. apply andb_prop in Hr as [H1 H2].
  split; [reflexivity | lia].
Qed.

Lemma dt_add_minutes_instant d n d' :
  dt_add_minutes d n = OK d' ->
  dt_aware d' = dt_aware d /\ dt_instant d' = dt_instant d + n * US_PER_MINUTE.
Proof.
  intros (Ho & Hw & _)%dt_add_minutes_OK. unfold dt_aware, dt_instant.
  rewrite Ho, Hw. destruct (dt_utcoffset d); split; (reflexivity || lia).
Qed.

Lemma dt_lt_OK a b r :
  dt_lt a b = OK r -> dt_aware a = dt_aware b /\ r = (dt_instant a <? dt_instant b).
Proof.
  unfold dt_lt. case_bool_decide; [|discriminate]. by intros [= <-].
Qed.

Lemma dt_eq_true a b :
  dt_eq a b = true -> dt_aware a = dt_aware b /\ dt_instant a = dt_instant b.
Proof.
  unfold dt_eq. intros [H1 H2]%andb_prop.
  apply bool_decide_eq_true in H1. split; [done | lia].
Qed.

(** ** The Run-Time Estimator *)

Lemma compute_run_time_minutes_ge_1 sec tr m :
  compute_run_time_minutes sec tr = OK m -> 1 <= m.
Proof.
  unfold compute_run_time_minutes. intros H. bind_inv H.
  injection H as <-. lia.
Qed.

(** ** The Sequencer: one section, one train, all trains *)

Lemma dt_le_refl a : dt_le a a.
Proof. split; [reflexivity | lia]. Qed.

Lemma dt_le_trans a b c : dt_le a b -> dt_le b c -> dt_le a c.
Proof. intros [H1 H2] [H3 H4]. split; [congruence | lia]. Qed.




(** After the headway test the enter time is the candidate or later, and
    at least the headway behind the previous exit. *)
Lemma enforce_headway_OK prev cand enter :
  enforce_headway prev cand = OK enter ->
  (enter = cand \/ dt_le cand enter) /\
  forall p, prev = Some p -> dt_apart SAFE_HEADWAY_MIN p enter.
Proof.
  destruct prev as [p|]; simpl; intros H.
  - bind_inv H. bind_inv H. rename a into bound, a0 into shift.
    apply dt_add_minutes_instant in Ha as [Hk Hi].
    apply dt_lt_OK in Ha0 as [Hk' ->].
    destruct (Z.ltb_spec (dt_instant cand) (dt_instant bound));
      injection H as <-.
    + split; [right; split; [done | lia] | ].
      intros ? [= <-]. split; [done | lia].
    + split; [by left | ].
      intros ? [= <-]. split; [congruence | lia].
  - injection H as <-. split; [by left | discriminate].
Qed.

Section SequencerFacts.

Variable sections_map : gmap string RailSection.
Variable fixed_enters : gmap string datetime.

(** What a successful pass over one section did. *)
Lemma schedule_section_OK tr st ct sid st' ct' :
  schedule_section sections_map fixed_enters tr (st, ct) sid = OK (st', ct') ->
  exists sec run_min enter,
    sections_map !! sid = Some sec /\
    compute_run_time_minutes sec tr = OK run_min /\
    (if single_track sec
     then enforce_headway (st_last_exit st !! sid)
            (default ct (fixed_enters !! override_key (tr_id tr) sid))
     else OK (default ct (fixed_enters !! override_key (tr_id tr) sid))) = OK enter /\
    dt_add_minutes enter run_min = OK ct' /\
    st' = {| st_legs := st_legs st ++
               [{| train_id := tr_id tr; section_id := sid; enter_time := enter;
                   exit_time := ct'; meet_pass_at := None |}];
             st_last_exit := <[sid := ct']> (st_last_exit st) |}.
Proof.
  unfold schedule_section. intros H.
  destruct (sections_map !! sid) as [sec|]; [|discriminate].
  bind_inv H. bind_inv H. bind_inv H. injection H as <- <-.
  exists sec, a, a0. by repeat split.
Qed.




End SequencerFacts.


(** ** [sorted]: a sorted permutation, whenever no comparison raises *)

Section Insort.

Context {A : Type} (lt : A -> A -> result bool) (R : A -> A -> Prop).
Hypothesis lt_true : forall x y, lt x y = OK true -> R x y.
Hypothesis lt_false : forall x y, lt x y = OK false -> R y x.
Hypothesis R_trans : forall x y z, R x y -> R y z -> R x z.

Lemma insort_Permutation x s s' : insort lt x s = OK s' -> Permutation (x :: s) s'.
Proof.
  revert s'. induction s as [|y s IH]; intros s' H; simpl in H.
  - by injection H as <-.
  - bind_inv H. destruct a.
    + by injection H as <-.
    + bind_inv H. injection H as <-.
      rewrite perm_swap. constructor. by apply IH.
Qed.

Lemma insort_sorted x s s' :
  StronglySorted R s -> insort lt x s = OK s' -> StronglySorted R s'.
Proof.
  revert s'. induction s as [|y s IH]; intros s' Hs H; simpl in H.
  - injection H as <-. repeat constructor.
  - apply StronglySorted_inv in Hs as [Hs Hy].
    bind_inv H. destruct a.
    + injection H as <-. apply lt_true in Ha.
      constructor; [by constructor|].
      constructor; [done|]. eapply Forall_impl; [exact Hy|].
      intros z Hz. by eapply R_trans.
    + bind_inv H. injection H as <-. apply lt_false in Ha.
      constructor; [by apply IH|].
      apply insort_Permutation in Ha0. rewrite <- Ha0. by constructor.
Qed.

Lemma py_sorted_app acc l s :
  foldlM (fun acc x => insort lt x acc) acc l = OK s ->
  Permutation (acc ++ l) s /\ (StronglySorted R acc -> StronglySorted R s).
Proof.
  revert acc. induction l as [|x l IH]; intros acc H; simpl in H.
  - injection H as <-. by rewrite app_nil_r.
  - bind_inv H. destruct (IH _ H) as [Hp Hs]. split.
    + rewrite <- Hp. apply insort_Permutation in Ha. rewrite <- Ha.
      by rewrite <- Permutation_middle.
    + intros Hacc. apply Hs. by eapply insort_sorted.
Qed.

Lemma py_sorted_OK l s :
  py_sorted lt l = OK s -> Permutation l s /\ StronglySorted R s.
Proof.
  intros [Hp Hs]%py_sorted_app. split; [done | apply Hs; constructor].
Qed.

End Insort.

Lemma sort_key_lt_true a b : sort_key_lt a b = OK true -> commits_before a b.
Proof.
  unfold sort_key_lt, commits_before.
  destruct (Z.eqb_spec (- priority a) (- priority b)) as [Hp | Hp]; simpl.
  - destruct (dt_eq _ _); simpl; [discriminate|].
    intros [Hk Hlt]%dt_lt_OK. right. split; [lia|]. split; [done | lia].
  - intros [= Hlt]. left. lia.
Qed.

Lemma sort_key_lt_false a b : sort_key_lt a b = OK false -> commits_before b a.
Proof.
  unfold sort_key_lt, commits_before.
  destruct (Z.eqb_spec (- priority a) (- priority b)) as [Hp | Hp]; simpl.
  - destruct (dt_eq _ _) eqn:He; simpl.
    + intros _. apply dt_eq_true in He as [Hk Hi]. right.
      split; [lia|]. split; [done | lia].
    + intros [Hk Hlt]%dt_lt_OK. right. split; [lia|]. split; [done | lia].
  - intros [= Hlt]. left. lia.
Qed.

Lemma commits_before_trans a b c :
  commits_before a b -> commits_before b c -> commits_before a c.
Proof.
  unfold commits_before. intros [H1 | [H1 H2]] [H3 | [H3 H4]];
    [left; lia | left; lia | left; lia | right].
  split; [lia | by eapply dt_le_trans].
Qed.

Lemma trains_sorted_OK ts sorted :
  py_sorted sort_key_lt ts = OK sorted ->
  Permutation ts sorted /\ StronglySorted commits_before sorted.
Proof.
  apply py_sorted_OK;
    [apply sort_key_lt_true | apply sort_key_lt_false | apply commits_before_trans].
Qed.

(** ** The legs of a run, train by train *)

Section Blocks.

Variable sections_map : gmap string RailSection.
Variable fixed_enters : gmap string datetime.

Lemma schedule_route_block tr rt st ct st' ct' :
  foldlM (schedule_section sections_map fixed_enters tr) (st, ct) rt = OK (st', ct') ->
  exists b, st_legs st' = st_legs st ++ b /\ section_id <$> b = rt /\
            Forall (fun l => train_id l = tr_id tr) b /\
            chained fixed_enters (tr_id tr) ct b.
Proof.
  revert st ct. induction rt as [|sid rt IH]; intros st ct H; simpl in H.
  - injection H as <- <-. exists []. by rewrite app_nil_r.
  - bind_inv H. destruct a as [st1 ct1].
    apply schedule_section_OK in Ha
      as (sec & run_min & enter & Hsec & Hrun & Henter & Hexit & ->).
    destruct (IH _ _ H) as (b & Hlegs & Hsecs & Hids & Hch). simpl in Hlegs.
    eexists (_ :: b). split; [|split; [|split]].
    + rewrite Hlegs, <- app_assoc. reflexivity.
    + by rewrite fmap_cons, Hsecs.
    + by constructor.
    + simpl. split; [|done]. intros Hnone. rewrite Hnone in Henter. simpl in Henter.
      destruct (single_track sec).
      * apply enforce_headway_OK in Henter as [[-> | Hle] _];
          [apply dt_le_refl | done].
      * injection Henter as <-. apply dt_le_refl.
Qed.

Lemma schedule_train_block st tr st' :
  schedule_train sections_map fixed_enters st tr = OK st' ->
  exists b, st_legs st' = st_legs st ++ b /\ emitted_for tr b /\
            chained fixed_enters (tr_id tr) (planned_departure tr) b.
Proof.
  unfold schedule_train. intros H. bind_inv H. injection H as <-.
  destruct a as [st1 ct1].
  apply schedule_route_block in Ha as (b & Hlegs & Hsecs & Hids & Hch).
  exists b. by repeat split.
Qed.

Lemma schedule_trains_blocks ts st st' :
  schedule_trains sections_map fixed_enters st ts = OK st' ->
  exists blocks, st_legs st' = st_legs st ++ concat blocks /\
    Forall2 (fun tr b => emitted_for tr b /\
               chained fixed_enters (tr_id tr) (planned_departure tr) b) ts blocks.
Proof.
  unfold schedule_trains. revert st.
  induction ts as [|tr ts IH]; intros st H; simpl in H.
  - injection H as <-. exists []. simpl. by rewrite app_nil_r.
  - bind_inv H. apply schedule_train_block in Ha as (b & Hb & Hem & Hch).
    destruct (IH _ H) as (blocks & Hlegs & Hall).
    exists (b :: blocks). split.
    + simpl. by rewrite Hlegs, Hb, <- app_assoc.
    + by constructor.
Qed.

End Blocks.

Section Generate.

Variable fromisoformat : string -> option datetime.
Variable domain_sections : list RailSection.

(** A schedule is returned exactly when the sort and the loops succeed. *)
Lemma generate_OK now sc sched :
  generate_feasible_schedule fromisoformat domain_sections now sc = OK sched ->
  exists trains_sorted st,
    py_sorted sort_key_lt (trains sc) = OK trains_sorted /\
    schedule_trains (index_sections domain_sections)
      (parse_fixed_overrides fromisoformat (overrides sc)) empty_state trains_sorted = OK st /\
    sched = {| scenario_id := sc_id sc; legs := st_legs st;
               objective := kpis_of (trains sc) (st_legs st);
               sched_created_at := now |}.
Proof.
  unfold generate_feasible_schedule. intros H. bind_inv H. bind_inv H.
  injection H as <-. by exists a, a0.
Qed.

End Generate.


(** ** The scenarios of the specification, evaluated *)

(** Scenario 1: A (priority 8) crosses S1 from 08:00 to 08:05; B (priority
    5) is held to 08:10 and leaves at 08:15; both trains finish. *)
Example scenario_1_schedule :
  generate_feasible_schedule sample_fromisoformat default_sections clock0 scenario_1
  = OK {| scenario_id := Some "sc"; legs := legs_1;
          objective := <["throughput" := Int 2]> (<["total_delay_min" := Float 0]> ∅);
          sched_created_at := clock0 |}.
Proof. vm_compute. reflexivity. Qed.

(** Scenario 2: with its enter time fixed at 08:30, A enters S1 at 08:30,
    and B, committed after A, at 08:40. *)
Example scenario_2_legs :
  exists sched,
    generate_feasible_schedule sample_fromisoformat default_sections clock0 scenario_2
      = OK sched /\
    legs sched = [a_leg "A" "S1" (naive 2024 1 1 8 30) (naive 2024 1 1 8 35);
                  a_leg "B" "S1" (naive 2024 1 1 8 40) (naive 2024 1 1 8 45)].
Proof. eexists. split; vm_compute; reflexivity. Qed.

(** Two trains of equal priority, one planned departure naive and one
    aware: the sort raises TypeError. *)
Example scenario_mixed_raises :
  generate_feasible_schedule sample_fromisoformat default_sections clock0 scenario_mixed
  = Raise TypeError.
Proof. vm_compute. reflexivity. Qed.

(** ** Headway, commitment order and route order of a returned schedule *)



(** C5. The trains are committed in one fixed order, a permutation of the
    scenario's trains sorted by priority descending and, among equal
    priorities, by planned departure ascending; the leg sequence of a
    returned schedule is the concatenation, in that order, of the runs of
    legs emitted for each train. *)
Theorem legs_follow_commitment_order fromisoformat domain_sections now sc sched :
  generate_feasible_schedule fromisoformat domain_sections now sc = OK sched ->
  exists trains_sorted blocks,
    Permutation (trains sc) trains_sorted /\
    StronglySorted commits_before trains_sorted /\
    legs sched = concat blocks /\
    Forall2 emitted_for trains_sorted blocks.
Proof.
  intros (sorted & st & Hsort & Hrun & ->)%generate_OK. simpl.
  apply trains_sorted_OK in Hsort as [Hperm Hsorted].
  apply schedule_trains_blocks in Hrun as (blocks & Hlegs & Hall).
  exists sorted, blocks. repeat split; [done.. | ].
  eapply Forall2_impl; [exact Hall | ]. by intros tr b [Hem _].
Qed.

(** In Scenario 1, A (priority 8) is committed before B (priority 5). *)
Lemma legs_follow_commitment_order_witness :
  exists trains_sorted blocks,
    Permutation [train_B; train_A] trains_sorted /\
    StronglySorted commits_before trains_sorted /\
    legs_1 = concat blocks /\
    Forall2 emitted_for trains_sorted blocks.
Proof.
  apply (legs_follow_commitment_order sample_fromisoformat default_sections clock0
           scenario_1
           {| scenario_id := Some "sc"; legs := legs_1;
              objective := kpis_of [train_B; train_A] legs_1;
              sched_created_at := clock0 |}).
  vm_compute. reflexivity.
Defined.




(** ** What the scheduling loops raise *)

Lemma dt_add_minutes_Raise d n e : dt_add_minutes d n = Raise e -> e = OverflowError.
Proof. unfold dt_add_minutes. case_match; [discriminate | by intros [= <-]]. Qed.

Lemma dt_lt_Raise a b e : dt_lt a b = Raise e -> e = TypeError.
Proof. unfold dt_lt. case_match; [discriminate | by intros [= <-]]. Qed.

Lemma py_int_Raise x e : py_int x = Raise e -> e = OverflowError \/ e = ValueError.
Proof. unfold py_int. case_match; intros [= <-]; auto. Qed.

Lemma compute_run_time_minutes_Raise sec tr e :
  compute_run_time_minutes sec tr = Raise e -> arithmetic_error e.
Proof.
  unfold compute_run_time_minutes, arithmetic_error.
  intros [H | (k & _ & H)]%bind_Raise; [|discriminate].
  apply py_int_Raise in H. tauto.
Qed.

Lemma enforce_headway_Raise prev cand e :
  enforce_headway prev cand = Raise e -> arithmetic_error e.
Proof.
  unfold arithmetic_error. destruct prev as [p|]; simpl; [|discriminate].
  intros [H | (bound & _ & H)]%bind_Raise.
  - apply dt_add_minutes_Raise in H. tauto.
  - apply bind_Raise in H as [H | (shift & _ & H)].
    + apply dt_lt_Raise in H. tauto.
    + by destruct shift.
Qed.

Lemma sort_key_lt_Raise a b e : sort_key_lt a b = Raise e -> e = TypeError.
Proof.
  unfold sort_key_lt. repeat case_match; try discriminate. apply dt_lt_Raise.
Qed.

Lemma insort_Raise {A} (lt : A -> A -> result bool) x s e :
  insort lt x s = Raise e -> exists a b, lt a b = Raise e.
Proof.
  induction s as [|y s IH]; simpl; [discriminate|].
  intros [H | (b & _ & H)]%bind_Raise; [eauto|].
  destruct b; [discriminate|].
  apply bind_Raise in H as [H | (r & _ & H)]; [auto | discriminate].
Qed.

Lemma py_sorted_Raise ts e : py_sorted sort_key_lt ts = Raise e -> e = TypeError.
Proof.
  intros (acc & x & _ & H)%foldlM_Raise.
  apply insort_Raise in H as (a & b & H). by eapply sort_key_lt_Raise.
Qed.

Section Failures.

Variable sections_map : gmap string RailSection.
Variable fixed_enters : gmap string datetime.

Lemma schedule_section_Raise tr acc sid e :
  schedule_section sections_map fixed_enters tr acc sid = Raise e ->
  (sections_map !! sid = None /\ e = unknown_section sid) \/ arithmetic_error e.
Proof.
  destruct acc as [st ct]. unfold schedule_section.
  destruct (sections_map !! sid) as [sec|]; [|intros [= <-]; by left].
  intros H. right.
  apply bind_Raise in H as [H | (run_min & _ & H)];
    [by eapply compute_run_time_minutes_Raise|].
  apply bind_Raise in H as [H | (enter & _ & H)].
  { destruct (single_track sec); [by eapply enforce_headway_Raise | discriminate]. }
  apply bind_Raise in H as [H | (exit & _ & H)]; [|discriminate].
  apply dt_add_minutes_Raise in H. unfold arithmetic_error. tauto.
Qed.

Lemma schedule_train_Raise st tr e :
  schedule_train sections_map fixed_enters st tr = Raise e ->
  (exists sid, sid ∈ route tr /\ sections_map !! sid = None /\ e = unknown_section sid)
  \/ arithmetic_error e.
Proof.
  unfold schedule_train. intros [H | (acc & _ & H)]%bind_Raise; [|discriminate].
  apply foldlM_Raise in H as (acc & sid & Hin & H).
  apply schedule_section_Raise in H as [[Hnone ->] | H]; [left | by right].
  by exists sid.
Qed.

Lemma schedule_trains_Raise st ts e :
  schedule_trains sections_map fixed_enters st ts = Raise e ->
  (exists tr sid, tr ∈ ts /\ sid ∈ route tr /\ sections_map !! sid = None /\
                  e = unknown_section sid)
  \/ arithmetic_error e.
Proof.
  intros (st' & tr & Hin & H)%foldlM_Raise.
  apply schedule_train_Raise in H as [(sid & Hsid & Hnone & ->) | H]; [left | by right].
  by exists tr, sid.
Qed.

(** A route through a section the directory lacks is never completed. *)
Lemma schedule_route_unknown tr rt acc sid :
  sid ∈ rt -> sections_map !! sid = None ->
  exists e, foldlM (schedule_section sections_map fixed_enters tr) acc rt = Raise e.
Proof.
  intros Hin Hnone. revert acc.
  induction rt as [|s rt IH]; intros acc; [by apply elem_of_nil in Hin|]. simpl.
  destruct (schedule_section sections_map fixed_enters tr acc s) as [acc'|e] eqn:Hs;
    simpl; [|by eexists].
  apply elem_of_cons in Hin as [-> | Hin]; [|by apply IH].
  destruct acc as [st ct]. unfold schedule_section in Hs. by rewrite Hnone in Hs.
Qed.

Lemma schedule_trains_unknown ts st tr sid :
  tr ∈ ts -> sid ∈ route tr -> sections_map !! sid = None ->
  exists e, schedule_trains sections_map fixed_enters st ts = Raise e.
Proof.
  intros Hin Hsid Hnone. revert st. unfold schedule_trains.
  induction ts as [|t ts IH]; intros st; [by apply elem_of_nil in Hin|]. simpl.
  destruct (schedule_train sections_map fixed_enters st t) as [st'|e] eqn:Ht;
    simpl; [|by eexists].
  apply elem_of_cons in Hin as [-> | Hin]; [|by apply IH].
  unfold schedule_train in Ht.
  destruct (schedule_route_unknown t (route t) (st, planned_departure t) sid Hsid Hnone)
    as [e He].
  by rewrite He in Ht.
Qed.

End Failures.

(** ** The first section the directory lacks *)

Section FirstUnknown.

Variable sections_map : gmap string RailSection.
Variable fixed_enters : gmap string datetime.

Lemma first_unknown_in_route (rt : list string) sid :
  sid ∈ rt -> sections_map !! sid = None ->
  exists r1 sid' r2, rt = r1 ++ sid' :: r2 /\ route_known sections_map r1 /\
                     sections_map !! sid' = None.
Proof.
  induction rt as [|s rt IH]; intros Hin Hnone; [by apply elem_of_nil in Hin|].
  destruct (sections_map !! s) as [sec|] eqn:Hs.
  - apply elem_of_cons in Hin as [-> | Hin]; [congruence|].
    destruct (IH Hin Hnone) as (r1 & sid' & r2 & -> & Hk & Hn).
    exists (s :: r1), sid', r2. split; [done|]. split; [|done].
    constructor; [by rewrite Hs | done].
  - exists [], s, rt. split; [done|]. split; [constructor | done].
Qed.

Lemma first_unknown_in_trains (ts : list Train) tr sid :
  tr ∈ ts -> sid ∈ route tr -> sections_map !! sid = None ->
  exists pre tr' post r1 sid' r2,
    ts = pre ++ tr' :: post /\ route tr' = r1 ++ sid' :: r2 /\
    Forall (fun t => route_known sections_map (route t)) pre /\
    route_known sections_map r1 /\ sections_map !! sid' = None.
Proof.
  induction ts as [|t ts IH]; intros Hin Hsid Hnone; [by apply elem_of_nil in Hin|].
  destruct (decide (route_known sections_map (route t))) as [Hk | Hk].
  - apply elem_of_cons in Hin as [-> | Hin].
    { unfold route_known in Hk. rewrite Forall_forall in Hk.
      destruct (Hk sid Hsid) as [sec Hsec]. congruence. }
    destruct (IH Hin Hsid Hnone) as (pre & tr' & post & r1 & sid' & r2 & -> & Hrt & Hpre & H).
    exists (t :: pre), tr', post, r1, sid', r2. split; [done|]. split; [done|].
    split; [by constructor | done].
  - apply not_Forall_Exists in Hk; [|apply _].
    apply Exists_exists in Hk as (s & Hs & Hnot).
    assert (Hn : sections_map !! s = None).
    { destruct (sections_map !! s) eqn:E; [|done]. destruct Hnot. by eexists. }
    destruct (first_unknown_in_route (route t) s Hs Hn) as (r1 & sid' & r2 & Hrt & Hk & Hn').
    exists [], t, ts, r1, sid', r2. split; [done|]. split; [done|].
    split; [constructor | done].
Qed.

Lemma schedule_route_known_Raise tr rt acc e :
  route_known sections_map rt ->
  foldlM (schedule_section sections_map fixed_enters tr) acc rt = Raise e ->
  arithmetic_error e.
Proof.
  intros Hk (acc' & sid & Hin & H)%foldlM_Raise.
  apply schedule_section_Raise in H as [[Hnone _] | H]; [|done].
  unfold route_known in Hk. rewrite Forall_forall in Hk.
  destruct (Hk sid Hin) as [sec Hsec]. congruence.
Qed.

Lemma schedule_trains_known_Raise ts st e :
  Forall (fun t => route_known sections_map (route t)) ts ->
  schedule_trains sections_map fixed_enters st ts = Raise e ->
  arithmetic_error e.
Proof.
  intros Hk (st' & tr & Hin & H)%foldlM_Raise.
  rewrite Forall_forall in Hk. unfold schedule_train in H.
  apply bind_Raise in H as [H | (acc & _ & H)]; [|discriminate].
  eapply schedule_route_known_Raise; [by apply Hk | exact H].
Qed.

(** The run up to the first lookup of a section the directory lacks
    decides the exception of the whole loop. *)
Lemma schedule_trains_first_unknown pre tr post r1 sid r2 :
  route tr = r1 ++ sid :: r2 -> sections_map !! sid = None ->
  schedule_trains sections_map fixed_enters empty_state (pre ++ tr :: post)
  = Raise (match steps_before sections_map fixed_enters pre tr r1 with
           | OK _ => unknown_section sid
           | Raise e => e
           end).
Proof.
  intros Hrt Hnone. unfold schedule_trains, steps_before. rewrite foldlM_app.
  fold (schedule_trains sections_map fixed_enters empty_state pre).
  destruct (schedule_trains sections_map fixed_enters empty_state pre) as [st|e];
    simpl; [|done].
  unfold schedule_train at 2. rewrite Hrt, foldlM_app.
  destruct (foldlM _ (st, planned_departure tr) r1) as [[st' ct']|e]; simpl; [|done].
  by rewrite Hnone.
Qed.

End FirstUnknown.

(** C6, as the code has it. When some train's route names a section the
    directory lacks, no schedule is returned, whatever was committed before:
    the call raises. Either the sort of the trains raised its TypeError; or
    the trains were sorted, and the exception is decided by the steps that
    come before the first lookup of a section the directory lacks, in
    commitment order and route order (the trains [pre] in full, all of them
    routed over known sections, then the known sections [r1] of the route
    of [tr']): if these steps pass, the call raises the Unknown-Section
    error of that very section, and if one of them raises, the call raises
    its exception, an error of the time and run-time arithmetic. *)
Theorem unknown_section_aborts fromisoformat domain_sections now sc tr sid :
  tr ∈ trains sc -> sid ∈ route tr -> index_sections domain_sections !! sid = None ->
  exists e,
    generate_feasible_schedule fromisoformat domain_sections now sc = Raise e /\
    ((py_sorted sort_key_lt (trains sc) = Raise TypeError /\ e = TypeError) \/
     (exists trains_sorted pre tr' post r1 sid' r2,
        py_sorted sort_key_lt (trains sc) = OK trains_sorted /\
        trains_sorted = pre ++ tr' :: post /\ route tr' = r1 ++ sid' :: r2 /\
        Forall (fun t => route_known (index_sections domain_sections) (route t)) pre /\
        route_known (index_sections domain_sections) r1 /\
        index_sections domain_sections !! sid' = None /\
        match steps_before (index_sections domain_sections)
                (parse_fixed_overrides fromisoformat (overrides sc)) pre tr' r1 with
        | OK _ => e = unknown_section sid'
        | Raise e' => e = e' /\ arithmetic_error e'
        end)).
Proof.
  intros Htr Hsid Hnone. unfold generate_feasible_schedule.
  destruct (py_sorted sort_key_lt (trains sc)) as [sorted|e] eqn:Hsort; simpl.
  - pose proof Hsort as [Hperm _]%trains_sorted_OK.
    assert (Htr' : tr ∈ sorted) by by rewrite <- Hperm.
    destruct (first_unknown_in_trains (index_sections domain_sections) sorted tr sid
                Htr' Hsid Hnone)
      as (pre & tr' & post & r1 & sid' & r2 & -> & Hrt & Hpre & Hr1 & Hnone').
    rewrite (schedule_trains_first_unknown _ _ pre tr' post r1 sid' r2 Hrt Hnone'). simpl.
    eexists. split; [reflexivity|]. right.
    exists (pre ++ tr' :: post), pre, tr', post, r1, sid', r2.
    do 6 (split; [done|]).
    unfold steps_before.
    destruct (schedule_trains _ _ empty_state pre) as [st|e] eqn:Hp; simpl.
    + destruct (foldlM _ (st, planned_departure tr') r1) as [acc|e] eqn:Hr; [done|].
      split; [done|]. by eapply schedule_route_known_Raise.
    + split; [done|]. by eapply schedule_trains_known_Raise.
  - apply py_sorted_Raise in Hsort as Heq. subst e.
    exists TypeError. split; [done|]. by left.
Qed.

(** Scenario 3: B is routed over S9 after A was committed; the call raises. *)
Lemma unknown_section_aborts_witness :
  exists e,
    generate_feasible_schedule sample_fromisoformat default_sections clock0 scenario_3
      = Raise e /\
    ((py_sorted sort_key_lt (trains scenario_3) = Raise TypeError /\ e = TypeError) \/
     (exists trains_sorted pre tr' post r1 sid' r2,
        py_sorted sort_key_lt (trains scenario_3) = OK trains_sorted /\
        trains_sorted = pre ++ tr' :: post /\ route tr' = r1 ++ sid' :: r2 /\
        Forall (fun t => route_known (index_sections default_sections) (route t)) pre /\
        route_known (index_sections default_sections) r1 /\
        index_sections default_sections !! sid' = None /\
        match steps_before (index_sections default_sections)
                (parse_fixed_overrides sample_fromisoformat (overrides scenario_3))
                pre tr' r1 with
        | OK _ => e = unknown_section sid'
        | Raise e' => e = e' /\ arithmetic_error e'
        end)).
Proof.
  apply (unknown_section_aborts sample_fromisoformat default_sections clock0
           scenario_3 train_B19 "S9").
  - simpl. set_solver.
  - simpl. set_solver.
  - vm_compute. reflexivity.
Defined.

(** In Scenario 3 the steps before the lookup of S9 pass, and the error is
    the Unknown-Section error of S9. *)
Example scenario_3_raises :
  steps_before (index_sections default_sections) ∅ [train_A] train_B19 ["S1"]
    = OK ({| st_legs := [a_leg "A" "S1" t0 (naive 2024 1 1 8 5);
                         a_leg "B" "S1" (naive 2024 1 1 8 10) (naive 2024 1 1 8 15)];
             st_last_exit := <["S1" := naive 2024 1 1 8 15]> ∅ |},
          naive 2024 1 1 8 15) /\
  generate_feasible_schedule sample_fromisoformat default_sections clock0 scenario_3
    = Raise (HTTPException 400 "Unknown section S9").
Proof. split; vm_compute; reflexivity. Qed.

(** C6 as stated fails. A train that leaves at 23:58 on the last
    representable day and crosses S1 before the unknown S9 makes the call
    raise OverflowError at the exit time of S1; and a train with an aware
    planned departure that follows, on S1, a train with a naive one makes
    it raise TypeError at the headway test. In both runs S9 is never looked
    up. *)
Lemma unknown_section_preceded_by_other_error :
  (train_late ∈ trains scenario_late /\ "S9" ∈ route train_late /\
   index_sections default_sections !! "S9" = None /\
   generate_feasible_schedule sample_fromisoformat default_sections clock0 scenario_late
     = Raise OverflowError) /\
  (train_B_utc ∈ trains scenario_kinds /\ "S9" ∈ route train_B_utc /\
   generate_feasible_schedule sample_fromisoformat default_sections clock0 scenario_kinds
     = Raise TypeError).
Proof.
  split.
  - split; [simpl; set_solver|]. split; [simpl; set_solver|].
    split; vm_compute; reflexivity.
  - split; [simpl; set_solver|]. split; [simpl; set_solver|].
    vm_compute; reflexivity.
Qed.

(** ** What a run depends on *)

Section SameInputs.

Lemma sort_key_lt_same_inputs a a' b b' :
  same_train_inputs a a' -> same_train_inputs b b' ->
  sort_key_lt a b = sort_key_lt a' b'.
Proof.
  intros (_ & Hp & _ & Hd & _) (_ & Hp' & _ & Hd' & _).
  unfold sort_key_lt. by rewrite Hp, Hp', Hd, Hd'.
Qed.

Lemma insort_same_inputs x x' s s' :
  same_train_inputs x x' -> Forall2 same_train_inputs s s' ->
  same_outcome (Forall2 same_train_inputs)
    (insort sort_key_lt x s) (insort sort_key_lt x' s').
Proof.
  intros Hx Hs. unfold same_outcome.
  induction Hs as [|y y' s s' Hy Hs IH]; simpl.
  - by constructor.
  - rewrite (sort_key_lt_same_inputs x x' y y' Hx Hy).
    destruct (sort_key_lt x' y') as [[|]|e]; simpl;
      [by repeat (constructor; [done|]) | | done].
    destruct (insort sort_key_lt x s) as [r|e], (insort sort_key_lt x' s') as [r'|e'];
      simpl in *; try done.
    by constructor.
Qed.

Lemma py_sorted_from_same_inputs l l' acc acc' :
  Forall2 same_train_inputs acc acc' -> Forall2 same_train_inputs l l' ->
  same_outcome (Forall2 same_train_inputs)
    (foldlM (fun acc x => insort sort_key_lt x acc) acc l)
    (foldlM (fun acc x => insort sort_key_lt x acc) acc' l').
Proof.
  intros Hacc Hl. revert acc acc' Hacc. unfold same_outcome.
  induction Hl as [|x x' l l' Hx Hl IH]; intros acc acc' Hacc; simpl; [done|].
  pose proof (insort_same_inputs x x' acc acc' Hx Hacc) as H. unfold same_outcome in H.
  destruct (insort sort_key_lt x acc) as [r|e], (insort sort_key_lt x' acc') as [r'|e'];
    simpl in *; try done.
  by apply IH.
Qed.

Lemma compute_run_time_minutes_same_inputs sec sec' tr tr' :
  same_section_inputs sec sec' -> same_train_inputs tr tr' ->
  compute_run_time_minutes sec tr = compute_run_time_minutes sec' tr'.
Proof.
  intros (Hl & _ & Hv) (_ & _ & Hs & _). unfold compute_run_time_minutes.
  by rewrite Hl, Hv, Hs.
Qed.

Variables sections_map sections_map' : gmap string RailSection.
Variable fixed_enters : gmap string datetime.
Hypothesis Hdir : same_directory sections_map sections_map'.

Lemma schedule_section_same_inputs tr tr' acc sid :
  same_train_inputs tr tr' ->
  schedule_section sections_map fixed_enters tr acc sid
  = schedule_section sections_map' fixed_enters tr' acc sid.
Proof.
  intros Htr. destruct acc as [st ct]. unfold schedule_section.
  destruct (Hdir sid) as [sec sec' Hsec|]; [|done].
  rewrite (compute_run_time_minutes_same_inputs sec sec' tr tr' Hsec Htr).
  destruct Hsec as (_ & -> & _). destruct Htr as (-> & _). reflexivity.
Qed.

Lemma schedule_route_same_inputs tr tr' rt acc :
  same_train_inputs tr tr' ->
  foldlM (schedule_section sections_map fixed_enters tr) acc rt
  = foldlM (schedule_section sections_map' fixed_enters tr') acc rt.
Proof.
  intros Htr. revert acc. induction rt as [|sid rt IH]; intros acc; simpl; [done|].
  rewrite (schedule_section_same_inputs tr tr' acc sid Htr).
  destruct (schedule_section sections_map' fixed_enters tr' acc sid); simpl; [apply IH | done].
Qed.

Lemma schedule_train_same_inputs st tr tr' :
  same_train_inputs tr tr' ->
  schedule_train sections_map fixed_enters st tr
  = schedule_train sections_map' fixed_enters st tr'.
Proof.
  intros Htr. unfold schedule_train.
  rewrite (schedule_route_same_inputs tr tr' _ _ Htr).
  destruct Htr as (_ & _ & _ & -> & ->). reflexivity.
Qed.

Lemma schedule_trains_same_inputs st ts ts' :
  Forall2 same_train_inputs ts ts' ->
  schedule_trains sections_map fixed_enters st ts
  = schedule_trains sections_map' fixed_enters st ts'.
Proof.
  intros Hts. revert st. unfold schedule_trains.
  induction Hts as [|tr tr' ts ts' Htr Hts IH]; intros st; simpl; [done|].
  rewrite (schedule_train_same_inputs st tr tr' Htr).
  destruct (schedule_train sections_map' fixed_enters st tr'); simpl; [apply IH | done].
Qed.

End SameInputs.

Lemma last_sections_same_inputs ts ts' :
  Forall2 same_train_inputs ts ts' -> last_sections ts = last_sections ts'.
Proof.
  unfold last_sections. generalize (∅ : gmap string (option string)).
  intros m Hts. revert m.
  induction Hts as [|t t' ts ts' (Hid & _ & _ & _ & Hrt) Hts IH]; intros m; simpl; [done|].
  rewrite Hid, Hrt. apply IH.
Qed.

(** C7, as the code has it. Each run reads the clock, the directory and
    its request. Two runs raise the same exception, or return schedules with
    the same scenario id, legs and objective map, as soon as they agree on
    what the scheduler reads: the scenario's id; the id, priority, maximum
    speed, planned departure and route of each train, in the order of the
    request; under each section id the length, track kind and speed limit
    of the section the index keeps; and the override table. So two runs on
    the same scenario, directory and override table agree, and nothing else
    reaches the result: not the clock, not the other fields of the scenario,
    of its trains and of the sections, not the order of the directory or
    the records its index drops, not the raw override records. The one
    field that differs is [created_at], the clock reading of each run. *)
Theorem runs_agree_up_to_created_at
    fromisoformat domain_sections1 domain_sections2 now1 now2 sc1 sc2 :
  sc_id sc1 = sc_id sc2 ->
  Forall2 same_train_inputs (trains sc1) (trains sc2) ->
  same_directory (index_sections domain_sections1) (index_sections domain_sections2) ->
  parse_fixed_overrides fromisoformat (overrides sc1)
    = parse_fixed_overrides fromisoformat (overrides sc2) ->
  match generate_feasible_schedule fromisoformat domain_sections1 now1 sc1,
        generate_feasible_schedule fromisoformat domain_sections2 now2 sc2 with
  | OK s1, OK s2 =>
      scenario_id s1 = scenario_id s2 /\ legs s1 = legs s2 /\
      objective s1 = objective s2 /\
      sched_created_at s1 = now1 /\ sched_created_at s2 = now2
  | Raise e1, Raise e2 => e1 = e2
  | _, _ => False
  end.
Proof.
  intros Hid Hts Hdir Hov. unfold generate_feasible_schedule.
  pose proof (py_sorted_from_same_inputs _ _ [] [] (Forall2_nil_2 _ _ _) Hts) as Hsort.
  unfold same_outcome in Hsort.
  fold (py_sorted sort_key_lt (trains sc1)) in Hsort.
  fold (py_sorted sort_key_lt (trains sc2)) in Hsort.
  destruct (py_sorted sort_key_lt (trains sc1)) as [s|e],
           (py_sorted sort_key_lt (trains sc2)) as [s'|e']; simpl in *; try done.
  rewrite Hov.
  rewrite (schedule_trains_same_inputs _ _ _ Hdir empty_state s s' Hsort).
  destruct (schedule_trains _ _ empty_state s') as [st|e]; simpl; [|done].
  unfold kpis_of. by rewrite Hid, (last_sections_same_inputs _ _ Hts).
Qed.

(** Scenario 1 at 07:30, and at 07:31 from a second request and a second
    read of the directory. *)
Lemma runs_agree_up_to_created_at_witness :
  match generate_feasible_schedule sample_fromisoformat default_sections clock0 scenario_1,
        generate_feasible_schedule sample_fromisoformat sections_relisted clock1
          scenario_1_again with
  | OK s1, OK s2 =>
      scenario_id s1 = scenario_id s2 /\ legs s1 = legs s2 /\
      objective s1 = objective s2 /\
      sched_created_at s1 = clock0 /\ sched_created_at s2 = clock1
  | Raise e1, Raise e2 => e1 = e2
  | _, _ => False
  end.
Proof.
  apply (runs_agree_up_to_created_at sample_fromisoformat default_sections
           sections_relisted clock0 clock1 scenario_1 scenario_1_again).
  - reflexivity.
  - repeat constructor.
  - intros sid. unfold index_sections. simpl.
    destruct (decide (sid = "S1")) as [-> | H1];
      [vm_compute; by repeat constructor|].
    destruct (decide (sid = "S2")) as [-> | H2];
      [vm_compute; by repeat constructor|].
    destruct (decide (sid = "S3")) as [-> | H3];
      [vm_compute; by repeat constructor|].
    rewrite !lookup_insert_ne, lookup_empty by done. constructor.
  - vm_compute. reflexivity.
Defined.

(** C7 as stated fails: the same scenario scheduled at 07:30 and at 07:31
    gives two schedules that differ in [created_at]. *)
Lemma runs_differ_in_created_at :
  exists s1 s2,
    generate_feasible_schedule sample_fromisoformat default_sections clock0 scenario_1
      = OK s1 /\
    generate_feasible_schedule sample_fromisoformat default_sections clock1 scenario_1
      = OK s2 /\
    s1 <> s2.
Proof.
  eexists _, _. split; [vm_compute; reflexivity|]. split; [vm_compute; reflexivity|].
  intros H. apply (f_equal sched_created_at) in H. vm_compute in H. discriminate.
Qed.

(** ** The what-if delay *)

Lemma delay_first_OK tid minutes ts (i : nat) t d :
  ts !! i = Some t -> tr_id t = tid ->
  (forall (j : nat) t', (j < i)%nat -> ts !! j = Some t' -> tr_id t' <> tid) ->
  dt_add_minutes (planned_departure t) minutes = OK d ->
  delay_first tid minutes ts = OK (<[i := set_planned_departure t d]> ts).
Proof.
  revert i. induction ts as [|t' ts IH]; intros i Hi Hid Hfirst Hadd; [done|].
  destruct i as [|i]; simpl in *.
  - injection Hi as ->. rewrite <- Hid, String.eqb_refl, Hadd. reflexivity.
  - destruct (String.eqb_spec (tr_id t') tid) as [Heq | Hne].
    + by destruct (Hfirst 0%nat t' ltac:(lia) eq_refl).
    + rewrite (IH i Hi Hid); [reflexivity | | done].
      intros j t'' Hj Hl. apply (Hfirst (S j)); [lia | done].
Qed.

(** C8, as the code has it. For a non-empty train id X and a non-zero
    delay d, the scenario handed to the scheduler is the request's scenario
    with one change: the first train whose id is X departs d minutes later.
    Every other field of that train, every other train and every other
    field of the scenario are as in the request. *)
Theorem what_if_delays_first_match
    fromisoformat domain_sections now req X (i : nat) t d :
  delay_train_id req = Some X -> X <> "" -> delay_minutes req <> 0 ->
  trains (wi_scenario req) !! i = Some t -> tr_id t = X ->
  (forall (j : nat) t', (j < i)%nat ->
     trains (wi_scenario req) !! j = Some t' -> tr_id t' <> X) ->
  dt_add_minutes (planned_departure t) (delay_minutes req) = OK d ->
  let sc' := set_trains (wi_scenario req)
               (<[i := set_planned_departure t d]> (trains (wi_scenario req))) in
  apply_delay req = OK sc' /\
  what_if fromisoformat domain_sections now req =
    sched ← generate_feasible_schedule fromisoformat domain_sections now sc';
    OK (sched, "Scenario re-optimized with applied delay.").
Proof.
  intros HX Hne Hd Hi Hid Hfirst Hadd sc'.
  assert (Happly : apply_delay req = OK sc').
  { unfold apply_delay. rewrite HX.
    destruct (String.eqb_spec X "") as [|_]; [done|].
    destruct (Z.eqb_spec (delay_minutes req) 0) as [|_]; [done|]. simpl.
    by rewrite (delay_first_OK X _ _ i t d). }
  split; [done|]. unfold what_if. by rewrite Happly.
Qed.

(** Train B of Scenario 1, delayed by 15 minutes, departs at 08:15. *)
Lemma what_if_delays_first_match_witness :
  let sc' := set_trains scenario_1
               (<[0%nat := set_planned_departure train_B (naive 2024 1 1 8 15)]>
                  (trains scenario_1)) in
  apply_delay request_delay_B = OK sc' /\
  what_if sample_fromisoformat default_sections clock0 request_delay_B =
    sched ← generate_feasible_schedule sample_fromisoformat default_sections clock0 sc';
    OK (sched, "Scenario re-optimized with applied delay.").
Proof.
  apply (what_if_delays_first_match sample_fromisoformat default_sections clock0
           request_delay_B "B" 0 train_B (naive 2024 1 1 8 15)).
  - reflexivity.
  - discriminate.
  - discriminate.
  - reflexivity.
  - reflexivity.
  - intros j t' Hj. lia.
  - vm_compute. reflexivity.
Defined.

(** C8 as stated fails. A request that names the train whose id is the
    empty string, with a delay of 15 minutes, is scheduled with that train's
    planned departure unchanged; of two trains under the id X only the first
    is delayed; and a delay that leaves the range of [datetime] makes the
    request raise. *)
Lemma what_if_delay_not_applied :
  (delay_train_id request_empty_id = Some (tr_id train_anonymous) /\
   delay_minutes request_empty_id = 15 /\
   apply_delay request_empty_id = OK (a_scenario [train_anonymous] ∅)) /\
  (tr_id train_X2 = "X" /\
   apply_delay request_shared_id
     = OK (a_scenario [set_planned_departure train_X1 (naive 2024 1 1 8 15); train_X2] ∅)) /\
  apply_delay request_overflow = Raise OverflowError.
Proof. repeat split; vm_compute; reflexivity. Qed.

(** ** The KPI aggregator *)

Lemma foldl_last_sections_notin (ts : list Train) (m : gmap string (option string)) k :
  k ∉ tr_id <$> ts ->
  foldl (fun m t => <[tr_id t := last (route t)]> m) m ts !! k = m !! k.
Proof.
  revert m. induction ts as [|t ts IH]; intros m Hk; [done|]. simpl.
  rewrite fmap_cons, not_elem_of_cons in Hk. destruct Hk as [Hne Hk].
  rewrite IH by done. by rewrite lookup_insert_ne.
Qed.

(** With pairwise distinct ids, [last_sections] maps the id of every train
    to the last section of its own route. *)
Lemma last_sections_lookup ts t :
  NoDup (tr_id <$> ts) -> t ∈ ts ->
  last_sections ts !! tr_id t = Some (last (route t)).
Proof.
  unfold last_sections. generalize (∅ : gmap string (option string)).
  induction ts as [|t' ts IH]; intros m Hnd Hin; [by apply elem_of_nil in Hin|].
  rewrite fmap_cons in Hnd. apply NoDup_cons in Hnd as [Hfresh Hnd]. simpl.
  apply elem_of_cons in Hin as [-> | Hin]; [|by apply IH].
  rewrite foldl_last_sections_notin by done. by rewrite lookup_insert_eq.
Qed.

Lemma filter_all {A} (P : A -> Prop) `{!forall x, Decision (P x)} (l : list A) :
  Forall P l -> filter P l = l.
Proof.
  induction 1 as [|x l Hx _ IH]; [done|].
  by rewrite filter_cons_True, IH.
Qed.

Lemma filter_none {A} (P : A -> Prop) `{!forall x, Decision (P x)} (l : list A) :
  Forall (fun x => ~ P x) l -> filter P l = [].
Proof.
  induction 1 as [|x l Hx _ IH]; [done|].
  by rewrite filter_cons_False.
Qed.

Lemma blocks_train_ids ts blocks :
  Forall2 emitted_for ts blocks ->
  Forall (fun l => train_id l ∈ tr_id <$> ts) (concat blocks).
Proof.
  induction 1 as [|tr b ts blocks [_ Hids] _ IH]; simpl; [constructor|].
  apply Forall_app. split.
  - eapply Forall_impl; [exact Hids|]. intros l ->. by left.
  - eapply Forall_impl; [exact IH|]. intros l Hl. by right.
Qed.

(** With pairwise distinct ids, the legs that carry the id of a train are
    the run emitted for it. *)
Lemma blocks_filter ts blocks l :
  Forall2 emitted_for ts blocks -> NoDup (tr_id <$> ts) -> l ∈ concat blocks ->
  exists tr b, tr ∈ ts /\ emitted_for tr b /\ l ∈ b /\
    filter (fun l' => train_id l' = tr_id tr) (concat blocks) = b.
Proof.
  induction 1 as [|tr b ts blocks Hem Hall IH]; intros Hnd Hl; simpl in *;
    [by apply elem_of_nil in Hl|].
  apply NoDup_cons in Hnd as [Hfresh Hnd].
  apply elem_of_app in Hl as [Hl | Hl].
  - exists tr, b. split; [by left|]. split; [done|]. split; [done|].
    rewrite filter_app, filter_all by apply Hem.
    rewrite filter_none; [by rewrite app_nil_r|].
    eapply Forall_impl; [by apply blocks_train_ids|].
    intros l' Hl' Heq. simpl in *. apply Hfresh. by rewrite <- Heq.
  - destruct (IH Hnd Hl) as (tr' & b' & Hin & Hem' & Hlb & Hfil).
    exists tr', b'. split; [by right|]. split; [done|]. split; [done|].
    rewrite filter_app, Hfil, filter_none; [done|].
    destruct Hem as [_ Hids]. eapply Forall_impl; [exact Hids|].
    intros l' Hl' Heq. simpl in *. apply Hfresh.
    rewrite <- Hl', Heq. by apply list_elem_of_fmap_2.
Qed.

Lemma kpis_of_throughput ts ls :
  kpis_of ts ls !! "throughput"
    = Some (Int (Z.of_nat (size (finished_trains (last_sections ts) ls)))).
Proof. unfold kpis_of. by rewrite lookup_insert_eq. Qed.

Lemma kpis_of_total_delay ts ls : kpis_of ts ls !! "total_delay_min" = Some (Float 0).
Proof. unfold kpis_of. by rewrite lookup_insert_ne, lookup_insert_eq. Qed.

(** The set the code counts is the set the specification describes, when
    the legs are the runs of trains with pairwise distinct ids. *)
Lemma finished_trains_spec ts sorted blocks :
  NoDup (tr_id <$> ts) -> Permutation ts sorted ->
  Forall2 emitted_for sorted blocks ->
  finished_trains (last_sections ts) (concat blocks)
    = list_to_set (tr_id <$> filter (completed_route (concat blocks)) ts).
Proof.
  intros Hnd Hperm Hall. apply set_eq. intros x. unfold finished_trains.
  rewrite !elem_of_list_to_set, !list_elem_of_fmap.
  assert (Hnd' : NoDup (tr_id <$> sorted)) by by rewrite <- Hperm.
  split.
  - intros (l & -> & [Hlast Hl]%list_elem_of_filter).
    destruct (blocks_filter _ _ _ Hall Hnd' Hl) as (tr & b & Hin & [Hsecs Hids] & Hlb & Hfil).
    rewrite <- Hperm in Hin.
    assert (Hid : train_id l = tr_id tr).
    { rewrite Forall_forall in Hids. by apply Hids. }
    exists tr. split; [done|]. apply list_elem_of_filter. split; [|done].
    rewrite Hid, (last_sections_lookup _ _ Hnd Hin) in Hlast.
    injection Hlast as Hlast. split; [by rewrite Hlast|].
    unfold last_leg_of. by rewrite Hfil, <- fmap_last, Hsecs.
  - intros (t & -> & [[Hsome Hlast] Hin]%list_elem_of_filter).
    unfold last_leg_of in Hlast.
    destruct (last (filter _ _)) as [l|] eqn:Hl;
      [|rewrite <- Hlast in Hsome; by destruct Hsome].
    apply last_Some_elem_of, list_elem_of_filter in Hl as [Hid Hl].
    exists l. split; [done|]. apply list_elem_of_filter. split; [|done].
    rewrite Hid, (last_sections_lookup _ _ Hnd Hin), <- Hlast. done.
Qed.

(** C9, as the code has it. For a scenario scheduled without error whose
    trains have pairwise distinct ids and routes without repeated sections,
    the throughput of the objective map is the number of distinct trains
    whose last emitted leg is on the last section of their route, and
    [total_delay_min] is 0. *)
Theorem throughput_counts_completed_routes fromisoformat domain_sections now sc sched :
  generate_feasible_schedule fromisoformat domain_sections now sc = OK sched ->
  NoDup (tr_id <$> trains sc) ->
  (forall t, t ∈ trains sc -> NoDup (route t)) ->
  objective sched !! "throughput" = Some (Int (spec_throughput (trains sc) (legs sched))) /\
  objective sched !! "total_delay_min" = Some (Float 0).
Proof.
  intros (sorted & st & Hsort & Hrun & ->)%generate_OK Hnd _. simpl.
  rewrite kpis_of_throughput, kpis_of_total_delay. split; [|done].
  apply trains_sorted_OK in Hsort as [Hperm _].
  apply schedule_trains_blocks in Hrun as (blocks & Hlegs & Hall). simpl in Hlegs.
  unfold spec_throughput. rewrite Hlegs. do 4 f_equal.
  apply finished_trains_spec with sorted; [done.. | ].
  eapply Forall2_impl; [exact Hall | ]. by intros tr b [Hem _].
Qed.

(** In Scenario 1 both trains complete their route. *)
Lemma throughput_counts_completed_routes_witness :
  kpis_of [train_B; train_A] legs_1 !! "throughput"
    = Some (Int (spec_throughput [train_B; train_A] legs_1)) /\
  kpis_of [train_B; train_A] legs_1 !! "total_delay_min" = Some (Float 0).
Proof.
  apply (throughput_counts_completed_routes sample_fromisoformat default_sections clock0
           scenario_1
           {| scenario_id := Some "sc"; legs := legs_1;
              objective := kpis_of [train_B; train_A] legs_1;
              sched_created_at := clock0 |}).
  - vm_compute. reflexivity.
  - simpl. compute_done.
  - simpl. intros t Ht.
    repeat (apply elem_of_cons in Ht as [-> | Ht]); [| | by apply elem_of_nil in Ht];
      compute_done.
Defined.

(** C9 as stated fails: of two trains under the id X, the first crosses
    S1, its whole route, and the second has an empty route; no route repeats
    a section. One train completed its route, the throughput is 0. *)
Lemma shared_id_hides_completed_train :
  exists sched,
    generate_feasible_schedule sample_fromisoformat default_sections clock0
      scenario_twins = OK sched /\
    (forall t, t ∈ trains scenario_twins -> NoDup (route t)) /\
    legs sched = [a_leg "X" "S1" t0 (naive 2024 1 1 8 5)] /\
    completed_route (legs sched) train_X1 /\
    spec_throughput (trains scenario_twins) (legs sched) = 1 /\
    objective sched !! "throughput" = Some (Int 0).
Proof.
  eexists. split; [vm_compute; reflexivity|].
  split.
  { simpl. intros t Ht.
    repeat (apply elem_of_cons in Ht as [-> | Ht]); [| | by apply elem_of_nil in Ht];
      compute_done. }
  split; [reflexivity|].
  split; [compute_done|].
  split; vm_compute; reflexivity.
Qed.

(** ** Floats: [int] and [floor] agree on what the estimator computes *)






Lemma py_max_1_positive x : sf_positive_or_nan (Prim2SF (py_max x 1)).
Proof.
  unfold py_max. destruct (PrimFloat.ltb x 1) eqn:Hlt; [done|].
  rewrite ltb_spec in Hlt. change (Prim2SF 1) with (S754_finite false 4503599627370496 (-52)) in Hlt.
  by destruct (Prim2SF x) as [[]|[]| |[] m e].
Qed.






(** ** The Override Resolver *)

(** The loop ends at the first malformed entry: what follows it is not
    read. *)
Lemma fixed_loop_stops fromisoformat fixed l1 e l2 ex :
  parse_entry fromisoformat e = Raise ex ->
  fixed_loop fromisoformat fixed (l1 ++ e :: l2) = fixed_loop fromisoformat fixed l1.
Proof.
  intros He. revert fixed. induction l1 as [|e1 l1 IH]; intros fixed; simpl.
  - by rewrite He.
  - destruct (parse_entry fromisoformat e1) as [[key t]|]; [apply IH | done].
Qed.

(** C2, evaluated. The complete entry for (B, S1) is in the table when it
    stands alone, and is lost when a malformed entry precedes it: the table
    is then empty. *)
Theorem malformed_entry_discards_later_entries :
  parse_fixed_overrides sample_fromisoformat (fixed_enters_of [entry_B])
    !! override_key "B" "S1" = Some (naive 2024 1 1 8 30) /\
  parse_entry sample_fromisoformat entry_malformed = Raise KeyError /\
  parse_fixed_overrides sample_fromisoformat
    (fixed_enters_of [entry_malformed; entry_B]) = ∅.
Proof. repeat split; vm_compute; reflexivity. Qed.

(** ** [sorted] raises exactly on incomparable trains *)

Lemma insort_Raise_elem {A} (lt : A -> A -> result bool) x s e :
  insort lt x s = Raise e -> exists y, y ∈ s /\ lt x y = Raise e.
Proof.
  induction s as [|y s IH]; simpl; [discriminate|].
  intros [H | (b & _ & H)]%bind_Raise.
  - exists y. split; [by left | done].
  - destruct b; [discriminate|].
    apply bind_Raise in H as [H | (r & _ & H)]; [|discriminate].
    destruct (IH H) as (z & Hz & Hlt). exists z. split; [by right | done].
Qed.

Lemma py_sorted_Raise_elem {A} (lt : A -> A -> result bool) acc l e :
  foldlM (fun acc x => insort lt x acc) acc l = Raise e ->
  exists x y, x ∈ l /\ y ∈ acc ++ l /\ lt x y = Raise e.
Proof.
  revert acc. induction l as [|x l IH]; intros acc H; simpl in H; [discriminate|].
  apply bind_Raise in H as [H | (acc' & Hacc & H)].
  - apply insort_Raise_elem in H as (y & Hy & Hlt).
    exists x, y. split; [by left|]. split; [|done]. apply elem_of_app. by left.
  - destruct (IH _ H) as (x' & y & Hx' & Hy & Hlt).
    exists x', y. split; [by right|]. split; [|done].
    apply insort_Permutation in Hacc. rewrite <- Hacc in Hy.
    rewrite <- Permutation_middle. done.
Qed.

Lemma sort_key_lt_Raise_incomparable a b e :
  sort_key_lt a b = Raise e -> incomparable a b.
Proof.
  unfold sort_key_lt, incomparable.
  destruct (Z.eqb_spec (- priority a) (- priority b)) as [Hp | Hp]; simpl; [|discriminate].
  destruct (dt_eq _ _); simpl; [discriminate|].
  unfold dt_lt. case_bool_decide; [discriminate|]. intros _. split; [lia | done].
Qed.

Lemma commits_before_comparable a b :
  commits_before a b -> priority a = priority b ->
  dt_aware (planned_departure a) = dt_aware (planned_departure b).
Proof. intros [H | [_ [H _]]] Hp; [lia | done]. Qed.

Lemma sorted_comparable (s : list Train) a b :
  StronglySorted commits_before s -> a ∈ s -> b ∈ s -> priority a = priority b ->
  dt_aware (planned_departure a) = dt_aware (planned_departure b).
Proof.
  induction 1 as [|x s Hs IH Hx]; intros Ha Hb Hp; [by apply elem_of_nil in Ha|].
  rewrite Forall_forall in Hx.
  apply elem_of_cons in Ha as [-> | Ha]; apply elem_of_cons in Hb as [-> | Hb].
  - done.
  - apply commits_before_comparable; [by apply Hx | done].
  - symmetry. apply commits_before_comparable; [by apply Hx | done].
  - by apply IH.
Qed.

(** The sort of the trains raises, and then a TypeError, exactly when two
    trains of equal priority have planned departures of different kinds.
    The statement does not depend on the order in which a sorting algorithm
    compares the trains. *)
Lemma trains_sorted_Raise_iff ts :
  py_sorted sort_key_lt ts = Raise TypeError <->
  exists a b, a ∈ ts /\ b ∈ ts /\ incomparable a b.
Proof.
  split.
  - intros (x & y & Hx & Hy & Hlt)%py_sorted_Raise_elem.
    exists x, y. split; [done|]. split; [done|].
    by eapply sort_key_lt_Raise_incomparable.
  - intros (a & b & Ha & Hb & Hp & Hkind).
    destruct (py_sorted sort_key_lt ts) as [s|e] eqn:Hsort.
    + apply trains_sorted_OK in Hsort as [Hperm Hsorted].
      rewrite Hperm in Ha, Hb. destruct Hkind. by eapply sorted_comparable.
    + by apply py_sorted_Raise in Hsort as ->.
Qed.

(** ** Taking a train out of the input takes it out of the sorted list *)

Lemma sort_key_lt_before x t y :
  sort_key_lt x t = OK true -> commits_before t y -> sort_key_lt x y = OK true.
Proof.
  unfold sort_key_lt, commits_before, dt_lt, dt_eq, dt_le.
  destruct (Z.eqb_spec (- priority x) (- priority t)) as [Hxt | Hxt]; simpl.
  - destruct (bool_decide (dt_aware (planned_departure x) = dt_aware (planned_departure t)))
      eqn:Hk; simpl.
    + apply bool_decide_eq_true in Hk.
      destruct (Z.eqb_spec (dt_instant (planned_departure x))
                           (dt_instant (planned_departure t))) as [Hi | Hi]; simpl;
        [discriminate|].
      intros [= Hlt%Z.ltb_lt] [Hp | (Hp & Hk' & Hle)].
      * destruct (Z.eqb_spec (- priority x) (- priority y)); simpl; [lia|].
        f_equal. apply Z.ltb_lt. lia.
      * destruct (Z.eqb_spec (- priority x) (- priority y)); simpl; [|lia].
        rewrite bool_decide_eq_true_2 by congruence. simpl.
        destruct (Z.eqb_spec (dt_instant (planned_departure x))
                             (dt_instant (planned_departure y))); simpl; [lia|].
        f_equal. apply Z.ltb_lt. lia.
    + discriminate.
  - intros [= Hlt%Z.ltb_lt] [Hp | (Hp & _)].
    + destruct (Z.eqb_spec (- priority x) (- priority y)); simpl; [lia|].
      f_equal. apply Z.ltb_lt. lia.
    + destruct (Z.eqb_spec (- priority x) (- priority y)); simpl; [lia|].
      f_equal. apply Z.ltb_lt. lia.
Qed.

Lemma insort_split {A} (lt : A -> A -> result bool) x s r :
  insort lt x s = OK r -> exists a b, s = a ++ b /\ r = a ++ x :: b.
Proof.
  revert r. induction s as [|y s IH]; intros r H; simpl in H.
  - injection H as <-. by exists [], [].
  - bind_inv H. destruct a.
    + injection H as <-. by exists [], (y :: s).
    + bind_inv H. injection H as <-.
      destruct (IH _ Ha0) as (a1 & b1 & -> & ->). by exists (y :: a1), b1.
Qed.

Lemma insort_without x t a b r :
  StronglySorted commits_before (a ++ t :: b) ->
  insort sort_key_lt x (a ++ t :: b) = OK r ->
  exists a' b', r = a' ++ t :: b' /\ insort sort_key_lt x (a ++ b) = OK (a' ++ b').
Proof.
  revert r. induction a as [|y a IH]; intros r Hs H; simpl in *.
  - apply StronglySorted_inv in Hs as [_ Ht]. bind_inv H. destruct a.
    + injection H as <-. exists [x], b. split; [done|].
      destruct b as [|y b]; simpl; [done|].
      apply Forall_inv in Ht. by rewrite (sort_key_lt_before x t y).
    + bind_inv H. injection H as <-. by exists [], a.
  - apply StronglySorted_inv in Hs as [Hs _]. bind_inv H. destruct a0.
    + injection H as <-. exists (x :: y :: a), b. by rewrite Ha.
    + bind_inv H. injection H as <-.
      destruct (IH _ Hs Ha0) as (a' & b' & -> & Hins).
      exists (y :: a'), b'. by rewrite Ha, Hins.
Qed.

Lemma py_sorted_from_without t l a b s :
  StronglySorted commits_before (a ++ t :: b) ->
  foldlM (fun acc x => insort sort_key_lt x acc) (a ++ t :: b) l = OK s ->
  exists a' b', s = a' ++ t :: b' /\
    foldlM (fun acc x => insort sort_key_lt x acc) (a ++ b) l = OK (a' ++ b').
Proof.
  revert a b. induction l as [|x l IH]; intros a b Hs H; simpl in H.
  - injection H as <-. by exists a, b.
  - bind_inv H. rename a0 into acc.
    destruct (insort_without _ _ _ _ _ Hs Ha) as (a1 & b1 & -> & Hins).
    eapply insort_sorted in Ha;
      [ | apply sort_key_lt_true | apply sort_key_lt_false
        | apply commits_before_trans | done].
    destruct (IH _ _ Ha H) as (a' & b' & -> & Hfold).
    exists a', b'. split; [done|]. simpl. by rewrite Hins.
Qed.

(** The sorted list of the trains without [t] is the sorted list of all
    trains without [t]. *)
Lemma trains_sorted_without l1 t l2 s :
  py_sorted sort_key_lt (l1 ++ t :: l2) = OK s ->
  exists s1 s2, s = s1 ++ t :: s2 /\ py_sorted sort_key_lt (l1 ++ l2) = OK (s1 ++ s2).
Proof.
  unfold py_sorted. rewrite !foldlM_app. intros H. bind_inv H. simpl in H.
  rename a into acc. bind_inv H. rename a into acc'.
  destruct (insort_split _ _ _ _ Ha0) as (a & b & -> & ->).
  assert (Hs : StronglySorted commits_before (a ++ t :: b)).
  { eapply insort_sorted;
      [apply sort_key_lt_true | apply sort_key_lt_false | apply commits_before_trans
      | | exact Ha0].
    eapply (py_sorted_app sort_key_lt commits_before);
      [apply sort_key_lt_true | apply sort_key_lt_false | apply commits_before_trans
      | exact Ha | constructor]. }
  destruct (py_sorted_from_without _ _ _ _ _ Hs H) as (a' & b' & -> & Hfold).
  exists a', b'. split; [done|]. by rewrite Ha.
Qed.

(** ** Trains without a route *)

Lemma foldl_last_sections_mono (l : list Train) (m1 m2 : gmap string (option string)) k s :
  (m1 !! k = Some (Some s) -> m2 !! k = Some (Some s)) ->
  foldl (fun m t => <[tr_id t := last (route t)]> m) m1 l !! k = Some (Some s) ->
  foldl (fun m t => <[tr_id t := last (route t)]> m) m2 l !! k = Some (Some s).
Proof.
  revert m1 m2. induction l as [|a l IH]; intros m1 m2 Hm; simpl; [done|].
  apply IH. destruct (decide (tr_id a = k)) as [<- | Hne].
  - by rewrite !lookup_insert_eq.
  - by rewrite !lookup_insert_ne.
Qed.

Lemma last_sections_without l1 t l2 k s :
  route t = [] ->
  last_sections (l1 ++ t :: l2) !! k = Some (Some s) ->
  last_sections (l1 ++ l2) !! k = Some (Some s).
Proof.
  intros Hrt. unfold last_sections. rewrite !foldl_app. simpl.
  apply foldl_last_sections_mono. rewrite Hrt. simpl.
  destruct (decide (tr_id t = k)) as [<- | Hne].
  - by rewrite lookup_insert_eq.
  - by rewrite lookup_insert_ne.
Qed.

Lemma last_sections_empty_route l1 t l2 :
  route t = [] -> (forall t', t' ∈ l2 -> tr_id t' <> tr_id t) ->
  last_sections (l1 ++ t :: l2) !! tr_id t = Some None.
Proof.
  intros Hrt Hl2. unfold last_sections. rewrite foldl_app. simpl.
  rewrite foldl_last_sections_notin.
  - by rewrite lookup_insert_eq, Hrt.
  - intros (t' & Heq & Hin)%list_elem_of_fmap. by apply (Hl2 t').
Qed.

Lemma schedule_train_empty_route sections_map fixed_enters st t :
  route t = [] -> schedule_train sections_map fixed_enters st t = OK st.
Proof. intros Hrt. unfold schedule_train. by rewrite Hrt. Qed.

Lemma schedule_trains_without sections_map fixed_enters st s1 t s2 :
  route t = [] ->
  schedule_trains sections_map fixed_enters st (s1 ++ t :: s2)
    = schedule_trains sections_map fixed_enters st (s1 ++ s2).
Proof.
  intros Hrt. unfold schedule_trains. rewrite !foldlM_app. simpl.
  destruct (foldlM _ st s1) as [st1|e]; simpl; [|done].
  by rewrite schedule_train_empty_route.
Qed.

Lemma incomparable_sym a b : incomparable a b -> incomparable b a.
Proof. intros [Hp Hk]. split; [done | congruence]. Qed.

Lemma incomparable_irrefl a : ~ incomparable a a.
Proof. by intros [_ Hk]. Qed.

Lemma elem_of_middle {A} (x t : A) l1 l2 :
  x ∈ l1 ++ t :: l2 -> x = t \/ x ∈ l1 ++ l2.
Proof. rewrite !elem_of_app, elem_of_cons. tauto. Qed.

(** Without the train, the trains that were incomparable stay so. *)
Lemma trains_sorted_Raise_without l1 t l2 :
  (forall u, u ∈ l1 ++ l2 -> ~ incomparable t u) ->
  py_sorted sort_key_lt (l1 ++ t :: l2) = Raise TypeError ->
  py_sorted sort_key_lt (l1 ++ l2) = Raise TypeError.
Proof.
  intros Ht (a & b & Ha & Hb & Hab)%trains_sorted_Raise_iff.
  apply trains_sorted_Raise_iff.
  apply elem_of_middle in Ha as [-> | Ha]; apply elem_of_middle in Hb as [-> | Hb].
  - by destruct (incomparable_irrefl t).
  - by destruct (Ht b Hb).
  - destruct (Ht a Ha). by apply incomparable_sym.
  - by exists a, b.
Qed.

Lemma foldl_last_sections_lookup_ne (l : list Train) (m1 m2 : gmap string (option string)) k :
  m1 !! k = m2 !! k ->
  foldl (fun m t => <[tr_id t := last (route t)]> m) m1 l !! k
  = foldl (fun m t => <[tr_id t := last (route t)]> m) m2 l !! k.
Proof.
  revert m1 m2. induction l as [|a l IH]; intros m1 m2 Hm; simpl; [done|].
  apply IH. destruct (decide (tr_id a = k)) as [<- | Hne].
  - by rewrite !lookup_insert_eq.
  - by rewrite !lookup_insert_ne.
Qed.

Lemma last_sections_lookup_without l1 t l2 k :
  k <> tr_id t -> last_sections (l1 ++ t :: l2) !! k = last_sections (l1 ++ l2) !! k.
Proof.
  intros Hk. unfold last_sections. rewrite !foldl_app. simpl.
  apply foldl_last_sections_lookup_ne. by rewrite lookup_insert_ne.
Qed.

Lemma foldl_last_sections_None (l : list Train) (m : gmap string (option string)) k :
  m !! k = None -> (forall t, t ∈ l -> tr_id t <> k) ->
  foldl (fun m t => <[tr_id t := last (route t)]> m) m l !! k = None.
Proof.
  revert m. induction l as [|a l IH]; intros m Hm Hl; simpl; [done|].
  apply IH.
  - rewrite lookup_insert_ne; [done|]. apply Hl. by left.
  - intros t Ht. apply Hl. by right.
Qed.

(** A train without a route, whose id no other train carries, leaves the
    finished trains as they are. *)
Lemma finished_trains_without l1 t l2 ls :
  route t = [] -> (forall t', t' ∈ l1 ++ l2 -> tr_id t' <> tr_id t) ->
  finished_trains (last_sections (l1 ++ t :: l2)) ls
  = finished_trains (last_sections (l1 ++ l2)) ls.
Proof.
  intros Hrt Hids. unfold finished_trains. do 2 f_equal.
  apply list_filter_iff. intros l.
  destruct (decide (train_id l = tr_id t)) as [Heq | Hne].
  - rewrite Heq.
    rewrite (last_sections_empty_route l1 t l2 Hrt).
    + unfold last_sections. rewrite foldl_last_sections_None; [split; discriminate|done|done].
    + intros t' Ht'. apply Hids. apply elem_of_app. by right.
  - by rewrite last_sections_lookup_without.
Qed.

(** For the whole function: a call has the same outcome, the same legs or
    the same exception, with and without a train of empty route that the
    sort can compare with every other train. *)
Lemma generate_without_empty_route
    fromisoformat domain_sections now sc l1 t l2 :
  trains sc = l1 ++ t :: l2 -> route t = [] ->
  (forall u, u ∈ l1 ++ l2 -> ~ incomparable t u) ->
  match generate_feasible_schedule fromisoformat domain_sections now sc,
        generate_feasible_schedule fromisoformat domain_sections now
          (set_trains sc (l1 ++ l2)) with
  | OK s, OK s' =>
      legs s = legs s' /\ scenario_id s = scenario_id s' /\
      ((forall t', t' ∈ l1 ++ l2 -> tr_id t' <> tr_id t) -> objective s = objective s')
  | Raise e, Raise e' => e = e'
  | _, _ => False
  end.
Proof.
  intros Hts Hrt Hcmp. unfold generate_feasible_schedule. rewrite Hts. simpl.
  destruct (py_sorted sort_key_lt (l1 ++ t :: l2)) as [s|e] eqn:Hsort.
  - apply trains_sorted_without in Hsort as (s1 & s2 & -> & ->). simpl.
    rewrite schedule_trains_without by done.
    destruct (schedule_trains _ _ empty_state (s1 ++ s2)) as [st|e]; simpl; [|done].
    split; [done|]. split; [done|]. intros Hids. unfold kpis_of.
    by rewrite finished_trains_without.
  - pose proof Hsort as ->%py_sorted_Raise.
    by rewrite (trains_sorted_Raise_without l1 t l2 Hcmp Hsort).
Qed.

(** C10, as the code has it. A train with an empty route passes through
    the Sequencer without a trace: its turn in the loop over the trains
    returns the state it was given (no leg, no Unknown-Section error), so
    the trains around it in the commitment order are scheduled as if it
    were absent; the aggregator never adds it to the finished trains, whose
    set is within that of the scenario without it and, when no later train
    shares its id, does not hold its id. The train still takes part in the
    sort. When its planned departure cannot be ordered against that of
    another train of its priority (one naive, one aware) the call raises
    TypeError; otherwise the call has the same outcome with and without the
    train: the same exception, or the same legs and scenario id and, when
    no other train carries its id, the same objective map. *)
Theorem empty_route_train_is_skipped
    sections_map fixed_enters st (s1 s2 l1 l2 : list Train) (t : Train) ls :
  route t = [] ->
  schedule_train sections_map fixed_enters st t = OK st /\
  schedule_trains sections_map fixed_enters st (s1 ++ t :: s2)
    = schedule_trains sections_map fixed_enters st (s1 ++ s2) /\
  finished_trains (last_sections (l1 ++ t :: l2)) ls
    ⊆ finished_trains (last_sections (l1 ++ l2)) ls /\
  ((forall t', t' ∈ l2 -> tr_id t' <> tr_id t) ->
   tr_id t ∉ finished_trains (last_sections (l1 ++ t :: l2)) ls) /\
  (forall fromisoformat domain_sections now sc,
     trains sc = l1 ++ t :: l2 ->
     ((exists u, u ∈ l1 ++ l2 /\ incomparable t u) ->
      generate_feasible_schedule fromisoformat domain_sections now sc = Raise TypeError) /\
     ((forall u, u ∈ l1 ++ l2 -> ~ incomparable t u) ->
      match generate_feasible_schedule fromisoformat domain_sections now sc,
            generate_feasible_schedule fromisoformat domain_sections now
              (set_trains sc (l1 ++ l2)) with
      | OK s, OK s' =>
          legs s = legs s' /\ scenario_id s = scenario_id s' /\
          ((forall t', t' ∈ l1 ++ l2 -> tr_id t' <> tr_id t) ->
           objective s = objective s')
      | Raise e, Raise e' => e = e'
      | _, _ => False
      end)).
Proof.
  intros Hrt.
  split; [by apply schedule_train_empty_route|].
  split; [by apply schedule_trains_without|]. split; [|split].
  - intros x. unfold finished_trains.
    rewrite !elem_of_list_to_set, !list_elem_of_fmap.
    intros (l & -> & [Hlast Hl]%list_elem_of_filter).
    exists l. split; [done|]. apply list_elem_of_filter. split; [|done].
    by eapply last_sections_without.
  - intros Hl2. unfold finished_trains.
    rewrite elem_of_list_to_set, list_elem_of_fmap.
    intros (l & Hid & [Hlast Hl]%list_elem_of_filter).
    rewrite <- Hid, (last_sections_empty_route _ _ _ Hrt Hl2) in Hlast. discriminate.
  - intros fromisoformat domain_sections now sc Hts. split.
    + intros (u & Hu & Hinc). unfold generate_feasible_schedule.
      assert (Hsort : py_sorted sort_key_lt (trains sc) = Raise TypeError).
      { apply trains_sorted_Raise_iff. exists t, u. rewrite Hts.
        split; [apply elem_of_app; right; by left|]. split; [|done].
        rewrite elem_of_app, elem_of_cons. apply elem_of_app in Hu. tauto. }
      by rewrite Hsort.
    + intros Hcmp. by apply generate_without_empty_route.
Qed.

(** A train without a route between trains A and B of Scenario 1. *)
Lemma empty_route_train_is_skipped_witness :
  schedule_train (index_sections default_sections) ∅ empty_state train_idle
    = OK empty_state /\
  schedule_trains (index_sections default_sections) ∅ empty_state
      ([train_A] ++ train_idle :: [train_B])
    = schedule_trains (index_sections default_sections) ∅ empty_state
        ([train_A] ++ [train_B]) /\
  finished_trains (last_sections ([train_B] ++ train_idle :: [train_A])) legs_1
    ⊆ finished_trains (last_sections ([train_B] ++ [train_A])) legs_1 /\
  ((forall t', t' ∈ [train_A] -> tr_id t' <> tr_id train_idle) ->
   tr_id train_idle ∉ finished_trains (last_sections ([train_B] ++ train_idle :: [train_A]))
                         legs_1) /\
  (forall fromisoformat domain_sections now sc,
     trains sc = [train_B] ++ train_idle :: [train_A] ->
     ((exists u, u ∈ [train_B] ++ [train_A] /\ incomparable train_idle u) ->
      generate_feasible_schedule fromisoformat domain_sections now sc = Raise TypeError) /\
     ((forall u, u ∈ [train_B] ++ [train_A] -> ~ incomparable train_idle u) ->
      match generate_feasible_schedule fromisoformat domain_sections now sc,
            generate_feasible_schedule fromisoformat domain_sections now
              (set_trains sc ([train_B] ++ [train_A])) with
      | OK s, OK s' =>
          legs s = legs s' /\ scenario_id s = scenario_id s' /\
          ((forall t', t' ∈ [train_B] ++ [train_A] -> tr_id t' <> tr_id train_idle) ->
           objective s = objective s')
      | Raise e, Raise e' => e = e'
      | _, _ => False
      end)).
Proof.
  apply (empty_route_train_is_skipped (index_sections default_sections) ∅ empty_state
           [train_A] [train_B] [train_B] [train_A] train_idle legs_1).
  reflexivity.
Defined.

(** C10 as stated fails. Beside train A, whose planned departure is naive,
    a train of the same priority without a route and with an aware planned
    departure is not accepted: the sort raises TypeError and no train is
    scheduled, whereas A alone is scheduled over S1. *)
Lemma empty_route_train_fails_the_sort :
  route train_idle_utc = [] /\
  trains scenario_mixed = [train_A] ++ train_idle_utc :: [] /\
  generate_feasible_schedule sample_fromisoformat default_sections clock0 scenario_mixed
    = Raise TypeError /\
  exists sched,
    generate_feasible_schedule sample_fromisoformat default_sections clock0
      (set_trains scenario_mixed ([train_A] ++ [])) = OK sched /\
    legs sched = [a_leg "A" "S1" t0 (naive 2024 1 1 8 5)].
Proof.
  split; [reflexivity|]. split; [reflexivity|]. split; [vm_compute; reflexivity|].
  eexists. split; vm_compute; reflexivity.
Qed.

(** * Further properties of the code *)

(** ** What every leg records *)

Section Traces.

Variable sections_map : gmap string RailSection.
Variable fixed_enters : gmap string datetime.

Lemma schedule_route_traced tr rt st ct st' ct' :
  foldlM (schedule_section sections_map fixed_enters tr) (st, ct) rt = OK (st', ct') ->
  exists b, st_legs st' = st_legs st ++ b /\ section_id <$> b = rt /\
            traced sections_map fixed_enters tr ct b.
Proof.
  revert st ct. induction rt as [|sid rt IH]; intros st ct H; simpl in H.
  - injection H as <- <-. exists []. by rewrite app_nil_r.
  - bind_inv H. destruct a as [st1 ct1].
    apply schedule_section_OK in Ha
      as (sec & run_min & enter & Hsec & Hrun & Henter & Hexit & ->).
    destruct (IH _ _ H) as (b & Hlegs & Hsecs & Htr). simpl in Hlegs.
    eexists (_ :: b). split; [|split].
    + rewrite Hlegs, <- app_assoc. reflexivity.
    + by rewrite fmap_cons, Hsecs.
    + simpl. split; [|done]. split; [done|]. split; [done|].
      exists sec, run_min. split; [done|]. split; [done|]. split; [done|].
      destruct (single_track sec).
      * apply enforce_headway_OK in Henter as [[-> | Hle] _]; [by left | by right].
      * injection Henter as <-. by left.
Qed.

Lemma schedule_trains_traced ts st st' :
  schedule_trains sections_map fixed_enters st ts = OK st' ->
  exists blocks, st_legs st' = st_legs st ++ concat blocks /\
    Forall2 (fun tr b => section_id <$> b = route tr /\
               traced sections_map fixed_enters tr (planned_departure tr) b) ts blocks.
Proof.
  unfold schedule_trains. revert st.
  induction ts as [|tr ts IH]; intros st H; simpl in H.
  - injection H as <-. exists []. simpl. by rewrite app_nil_r.
  - bind_inv H. unfold schedule_train in Ha. bind_inv Ha. injection Ha as <-.
    destruct a0 as [st1 ct1].
    apply schedule_route_traced in Ha0 as (b & Hb & Hsecs & Htr).
    destruct (IH _ H) as (blocks & Hlegs & Hall).
    exists (b :: blocks). split.
    + simpl in *. by rewrite Hlegs, Hb, <- app_assoc.
    + by constructor.
Qed.

Lemma traced_elem tr ct b l :
  traced sections_map fixed_enters tr ct b -> l ∈ b ->
  exists ct', leg_of sections_map fixed_enters tr ct' l.
Proof.
  revert ct. induction b as [|l' b IH]; intros ct Htr Hl; [by apply elem_of_nil in Hl|].
  destruct Htr as [Hleg Htr]. apply elem_of_cons in Hl as [-> | Hl]; [by exists ct|].
  by eapply IH.
Qed.

Lemma leg_of_stay tr ct l :
  leg_of sections_map fixed_enters tr ct l -> dt_apart 1 (enter_time l) (exit_time l).
Proof.
  intros (_ & _ & sec & m & _ & Hrun & Hexit & _).
  apply compute_run_time_minutes_ge_1 in Hrun.
  apply dt_add_minutes_instant in Hexit as [Hk Hi].
  split; [done | unfold US_PER_MINUTE in *; lia].
Qed.



End Traces.

(** Every leg of a returned schedule was recorded for a train of the
    scenario, on a section of that train's route. *)
Lemma leg_in_schedule fromisoformat domain_sections now sc sched l :
  generate_feasible_schedule fromisoformat domain_sections now sc = OK sched ->
  l ∈ legs sched ->
  exists tr ct, tr ∈ trains sc /\ section_id l ∈ route tr /\
    leg_of (index_sections domain_sections)
           (parse_fixed_overrides fromisoformat (overrides sc)) tr ct l.
Proof.
  intros (sorted & st & Hsort & Hrun & ->)%generate_OK Hl. simpl in Hl.
  apply trains_sorted_OK in Hsort as [Hperm _].
  apply schedule_trains_traced in Hrun as (blocks & Hlegs & Hall).
  simpl in Hlegs. rewrite Hlegs in Hl. clear Hlegs.
  setoid_rewrite Hperm. clear Hperm.
  induction Hall as [|tr b ts blocks [Hsecs Htr] _ IH]; simpl in Hl;
    [by apply elem_of_nil in Hl|].
  apply elem_of_app in Hl as [Hl | Hl].
  - destruct (traced_elem _ _ _ _ _ _ Htr Hl) as [ct Hleg].
    exists tr, ct. split; [by left|]. split; [|done].
    rewrite <- Hsecs. by apply list_elem_of_fmap_2.
  - destruct (IH Hl) as (tr' & ct & Hin & Hrt & Hleg).
    exists tr', ct. split; [by right | done].
Qed.

(** X1. Every leg of a returned schedule belongs to a train of the
    scenario and to a section of that train's route which the directory
    holds, and it lasts exactly the minutes the estimator gives for that
    section and train. *)
Theorem leg_lasts_estimated_minutes fromisoformat domain_sections now sc sched l :
  generate_feasible_schedule fromisoformat domain_sections now sc = OK sched ->
  l ∈ legs sched ->
  exists tr sec m,
    tr ∈ trains sc /\ tr_id tr = train_id l /\ section_id l ∈ route tr /\
    index_sections domain_sections !! section_id l = Some sec /\
    compute_run_time_minutes sec tr = OK m /\
    dt_add_minutes (enter_time l) m = OK (exit_time l).
Proof.
  intros Hgen Hl.
  destruct (leg_in_schedule _ _ _ _ _ _ Hgen Hl)
    as (tr & ct & Hin & Hrt & Hid & _ & sec & m & Hsec & Hrun & Hexit & _).
  by exists tr, sec, m.
Qed.

(** In Scenario 1 the leg of B on S1 lasts the 5 minutes of S1. *)
Lemma leg_lasts_estimated_minutes_witness :
  exists tr sec m,
    tr ∈ trains scenario_1 /\
    tr_id tr = train_id (a_leg "B" "S1" (naive 2024 1 1 8 10) (naive 2024 1 1 8 15)) /\
    section_id (a_leg "B" "S1" (naive 2024 1 1 8 10) (naive 2024 1 1 8 15)) ∈ route tr /\
    index_sections default_sections
      !! section_id (a_leg "B" "S1" (naive 2024 1 1 8 10) (naive 2024 1 1 8 15)) = Some sec /\
    compute_run_time_minutes sec tr = OK m /\
    dt_add_minutes (enter_time (a_leg "B" "S1" (naive 2024 1 1 8 10) (naive 2024 1 1 8 15))) m
      = OK (exit_time (a_leg "B" "S1" (naive 2024 1 1 8 10) (naive 2024 1 1 8 15))).
Proof.
  eapply (leg_lasts_estimated_minutes sample_fromisoformat default_sections clock0
            scenario_1 _ (a_leg "B" "S1" (naive 2024 1 1 8 10) (naive 2024 1 1 8 15))).
  - vm_compute. reflexivity.
  - vm_compute. right. left.
Defined.

(** X2. Every leg of a returned schedule is left at least one minute after
    it is entered, at a time [datetime] can hold, and names no meeting
    point. *)
Theorem leg_interval_is_proper fromisoformat domain_sections now sc sched l :
  generate_feasible_schedule fromisoformat domain_sections now sc = OK sched ->
  l ∈ legs sched ->
  dt_apart 1 (enter_time l) (exit_time l) /\ dt_valid (exit_time l) /\
  meet_pass_at l = None.
Proof.
  intros Hgen Hl.
  destruct (leg_in_schedule _ _ _ _ _ _ Hgen Hl) as (tr & ct & _ & _ & Hleg).
  split; [by eapply leg_of_stay|].
  destruct Hleg as (_ & Hmeet & sec & m & _ & _ & Hexit & _).
  split; [|done]. by apply dt_add_minutes_OK in Hexit as (_ & _ & Hrange).
Qed.

(** In Scenario 1 the leg of A on S1. *)
Lemma leg_interval_is_proper_witness :
  dt_apart 1 (enter_time (a_leg "A" "S1" t0 (naive 2024 1 1 8 5)))
             (exit_time (a_leg "A" "S1" t0 (naive 2024 1 1 8 5))) /\
  dt_valid (exit_time (a_leg "A" "S1" t0 (naive 2024 1 1 8 5))) /\
  meet_pass_at (a_leg "A" "S1" t0 (naive 2024 1 1 8 5)) = None.
Proof.
  eapply (leg_interval_is_proper sample_fromisoformat default_sections clock0
            scenario_1 _ (a_leg "A" "S1" t0 (naive 2024 1 1 8 5))).
  - vm_compute. reflexivity.
  - vm_compute. left.
Defined.

(** X3. A fixed-enter override is a lower bound: a leg whose train id and
    section id have an override is entered at the fixed time or later, and
    exactly at the fixed time when its section is not single-track. *)
Theorem override_is_lower_bound fromisoformat domain_sections now sc sched l f :
  generate_feasible_schedule fromisoformat domain_sections now sc = OK sched ->
  l ∈ legs sched ->
  parse_fixed_overrides fromisoformat (overrides sc)
    !! override_key (train_id l) (section_id l) = Some f ->
  dt_le f (enter_time l) /\
  (forall sec, index_sections domain_sections !! section_id l = Some sec ->
     single_track sec = false -> enter_time l = f).
Proof.
  intros Hgen Hl Hf.
  destruct (leg_in_schedule _ _ _ _ _ _ Hgen Hl)
    as (tr & ct & _ & _ & Hid & _ & sec & m & Hsec & _ & _ & Hcand).
  rewrite <- Hid, Hf in Hcand. simpl in Hcand. split.
  - destruct Hcand as [-> | [_ Hle]]; [apply dt_le_refl | done].
  - intros sec' Hsec' Hst. rewrite Hsec in Hsec'. injection Hsec' as <-.
    destruct Hcand as [-> | [Hst' _]]; [done | congruence].
Qed.

(** Scenario 2: A, fixed at 08:30 on S1, enters at 08:30. *)
Lemma override_is_lower_bound_witness :
  dt_le (naive 2024 1 1 8 30)
        (enter_time (a_leg "A" "S1" (naive 2024 1 1 8 30) (naive 2024 1 1 8 35))) /\
  (forall sec,
     index_sections default_sections
       !! section_id (a_leg "A" "S1" (naive 2024 1 1 8 30) (naive 2024 1 1 8 35)) = Some sec ->
     single_track sec = false ->
     enter_time (a_leg "A" "S1" (naive 2024 1 1 8 30) (naive 2024 1 1 8 35))
       = naive 2024 1 1 8 30).
Proof.
  eapply (override_is_lower_bound sample_fromisoformat default_sections clock0
            scenario_2 _ (a_leg "A" "S1" (naive 2024 1 1 8 30) (naive 2024 1 1 8 35))).
  - vm_compute. reflexivity.
  - vm_compute. left.
  - vm_compute. reflexivity.
Defined.





(** ** The first leg on a section *)

Lemma schedule_section_first_use sections_map fixed_enters tr st ct sid st' ct' :
  first_use_inv fixed_enters st ->
  schedule_section sections_map fixed_enters tr (st, ct) sid = OK (st', ct') ->
  first_use_inv fixed_enters st'.
Proof.
  intros [Hdom Hfirst] H.
  apply schedule_section_OK in H
    as (sec & run_min & enter & Hsec & Hrun & Henter & Hexit & ->).
  split; simpl.
  - intros sid' Hsome. destruct (decide (sid = sid')) as [<- | Hne].
    + eexists. split; [apply elem_of_app; right; by left | done].
    + rewrite lookup_insert_ne in Hsome by done.
      destruct (Hdom _ Hsome) as (l & Hl & Hs). exists l. split; [|done].
      apply elem_of_app. by left.
  - intros j l f Hj Hnew Hf.
    apply lookup_snoc_Some in Hj as [[Hlt Hj] | [-> <-]].
    + apply (Hfirst j l f Hj); [|done]. intros i l' Hi Hl'.
      apply (Hnew i l' Hi). apply lookup_snoc_Some. left. split; [|done].
      apply lookup_lt_Some in Hl'. lia.
    + simpl in *.
      assert (Hnone : st_last_exit st !! sid = None).
      { destruct (st_last_exit st !! sid) as [d|] eqn:Hd; [|done].
        destruct (Hdom sid) as (l' & Hl' & Hs); [by eexists|].
        apply list_elem_of_lookup in Hl' as [i Hi].
        destruct (Hnew i l'); [by eapply lookup_lt_Some | | done].
        apply lookup_snoc_Some. left. split; [by eapply lookup_lt_Some | done]. }
      rewrite Hnone, Hf in Henter. simpl in Henter.
      destruct (single_track sec); by injection Henter as <-.
Qed.

Lemma schedule_trains_first_use sections_map fixed_enters ts st st' :
  first_use_inv fixed_enters st ->
  schedule_trains sections_map fixed_enters st ts = OK st' ->
  first_use_inv fixed_enters st'.
Proof.
  apply (foldlM_invariant (first_use_inv fixed_enters)).
  intros s tr s' _ Hinv H. unfold schedule_train in H. bind_inv H. injection H as <-.
  revert Ha.
  apply (foldlM_invariant (fun acc => first_use_inv fixed_enters acc.1)); [|done].
  intros [s1 c1] sid [s2 c2] _. apply schedule_section_first_use.
Qed.

(** X6. A leg that is the first of the schedule on its section and has a
    fixed-enter override is entered exactly at the fixed time, whatever the
    train's planned departure or earlier legs. *)
Theorem first_leg_on_section_keeps_override
    fromisoformat domain_sections now sc sched (j : nat) l f :
  generate_feasible_schedule fromisoformat domain_sections now sc = OK sched ->
  legs sched !! j = Some l ->
  (forall (i : nat) l', (i < j)%nat -> legs sched !! i = Some l' ->
     section_id l' <> section_id l) ->
  parse_fixed_overrides fromisoformat (overrides sc)
    !! override_key (train_id l) (section_id l) = Some f ->
  enter_time l = f.
Proof.
  intros (sorted & st & _ & Hrun & ->)%generate_OK Hj Hnew Hf. simpl in *.
  apply schedule_trains_first_use in Hrun as [_ Hfirst].
  - by eapply Hfirst.
  - split; simpl.
    + intros sid [d Hd]. by rewrite lookup_empty in Hd.
    + intros i l' f' Hi. by rewrite lookup_nil in Hi.
Qed.

(** Scenario 2: the leg of A, the first on S1, is entered at 08:30. *)
Lemma first_leg_on_section_keeps_override_witness :
  enter_time (a_leg "A" "S1" (naive 2024 1 1 8 30) (naive 2024 1 1 8 35))
  = naive 2024 1 1 8 30.
Proof.
  eapply (first_leg_on_section_keeps_override sample_fromisoformat default_sections
            clock0 scenario_2 _ 0).
  - vm_compute. reflexivity.
  - vm_compute. reflexivity.
  - intros i l' Hi. lia.
  - vm_compute. reflexivity.
Defined.

(** ** The sort is stable *)

Lemma sort_key_lt_not_same_key t x z :
  sort_key_lt x z = OK true -> same_key t x -> ~ same_key t z.
Proof.
  unfold sort_key_lt, same_key.
  intros Hlt [Hp Heq] [Hp' Heq'].
  apply dt_eq_true in Heq as [Hk Hi]. apply dt_eq_true in Heq' as [Hk' Hi'].
  destruct (Z.eqb_spec (- priority x) (- priority z)) as [_ | Hne]; simpl in Hlt; [|lia].
  destruct (dt_eq (planned_departure x) (planned_departure z)); simpl in Hlt;
    [discriminate|].
  apply dt_lt_OK in Hlt as [_ Hlt]. symmetry in Hlt. apply Z.ltb_lt in Hlt. lia.
Qed.

Lemma insort_filter_same_key t x acc r :
  StronglySorted commits_before acc ->
  insort sort_key_lt x acc = OK r ->
  filter (same_key t) r
  = filter (same_key t) acc ++ (if decide (same_key t x) then [x] else []).
Proof.
  revert r. induction acc as [|y acc IH]; intros r Hs H; simpl in H.
  - injection H as <-. rewrite filter_cons. by destruct (decide (same_key t x)).
  - apply StronglySorted_inv in Hs as [Hs Hy]. bind_inv H. destruct a.
    + injection H as <-. rewrite (filter_cons _ x).
      destruct (decide (same_key t x)) as [Hx | Hx]; [|by rewrite app_nil_r].
      rewrite filter_none; [done|].
      constructor; [by eapply sort_key_lt_not_same_key|].
      eapply Forall_impl; [exact Hy|]. intros z Hz.
      eapply sort_key_lt_not_same_key; [|done].
      by eapply sort_key_lt_before.
    + bind_inv H. injection H as <-.
      rewrite !(filter_cons _ y), (IH _ Hs Ha0).
      by destruct (decide (same_key t y)).
Qed.

Lemma py_sorted_filter_same_key t acc l s :
  StronglySorted commits_before acc ->
  foldlM (fun acc x => insort sort_key_lt x acc) acc l = OK s ->
  filter (same_key t) s = filter (same_key t) acc ++ filter (same_key t) l.
Proof.
  revert acc. induction l as [|x l IH]; intros acc Hs H; simpl in H.
  - injection H as <-. by rewrite app_nil_r.
  - bind_inv H. rewrite (IH a); [| | done].
    + rewrite (insort_filter_same_key t x acc a Hs Ha), filter_cons, <- app_assoc.
      by destruct (decide (same_key t x)).
    + eapply insort_sorted;
        [apply sort_key_lt_true | apply sort_key_lt_false | apply commits_before_trans
        | exact Hs | exact Ha].
Qed.

(** X7. The sort of the trains is stable: the trains with the priority and
    the planned departure of a given train stand in the commitment order as
    they stand in the scenario. *)
Theorem trains_sorted_stable ts trains_sorted t :
  py_sorted sort_key_lt ts = OK trains_sorted ->
  filter (same_key t) trains_sorted = filter (same_key t) ts.
Proof.
  intros H. apply (py_sorted_filter_same_key t) in H; [done | constructor].
Qed.

(** B and C, of priority 5 at 08:00, stay in this order behind A. *)
Lemma trains_sorted_stable_witness :
  filter (same_key train_B) [train_A; train_B; train_C]
  = filter (same_key train_B) [train_B; train_A; train_C].
Proof.
  apply (trains_sorted_stable [train_B; train_A; train_C] [train_A; train_B; train_C]
           train_B).
  vm_compute. reflexivity.
Defined.

(** ** The throughput of a returned schedule *)

Lemma block_of_train (ts : list Train) (blocks : list (list ScheduleLeg)) t :
  Forall2 emitted_for ts blocks -> t ∈ ts ->
  exists b, emitted_for t b /\ forall l, l ∈ b -> l ∈ concat blocks.
Proof.
  induction 1 as [|tr b ts blocks Hem _ IH]; intros Hin; [by apply elem_of_nil in Hin|].
  apply elem_of_cons in Hin as [-> | Hin].
  - exists b. split; [done|]. intros l Hl. simpl. apply elem_of_app. by left.
  - destruct (IH Hin) as (b' & Hem' & Hsub). exists b'. split; [done|].
    intros l Hl. simpl. apply elem_of_app. right. by apply Hsub.
Qed.

Lemma finished_trains_routed ts sorted blocks :
  NoDup (tr_id <$> ts) -> Permutation ts sorted ->
  Forall2 emitted_for sorted blocks ->
  finished_trains (last_sections ts) (concat blocks)
    = list_to_set (tr_id <$> filter (fun t => route t <> []) ts).
Proof.
  intros Hnd Hperm Hall. apply set_eq. intros x. unfold finished_trains.
  rewrite !elem_of_list_to_set, !list_elem_of_fmap.
  assert (Hnd' : NoDup (tr_id <$> sorted)) by by rewrite <- Hperm.
  split.
  - intros (l & -> & [_ Hl]%list_elem_of_filter).
    destruct (blocks_filter _ _ _ Hall Hnd' Hl) as (tr & b & Hin & [Hsecs Hids] & Hlb & _).
    exists tr. split.
    + rewrite Forall_forall in Hids. by apply Hids.
    + apply list_elem_of_filter. split; [|by rewrite Hperm].
      intros Hrt. rewrite Hrt in Hsecs. apply fmap_nil_inv in Hsecs. subst b.
      by apply elem_of_nil in Hlb.
  - intros (t & -> & [Hrt Hin]%list_elem_of_filter).
    assert (Hin' : t ∈ sorted) by by rewrite <- Hperm.
    destruct (block_of_train _ _ _ Hall Hin') as (b & [Hsecs Hids] & Hsub).
    destruct (last b) as [l|] eqn:Hlast.
    + assert (Hl : l ∈ b) by by apply last_Some_elem_of.
      exists l. rewrite Forall_forall in Hids. split; [symmetry; by apply Hids|].
      apply list_elem_of_filter. split; [|by apply Hsub].
      rewrite (Hids l Hl), (last_sections_lookup _ _ Hnd Hin).
      by rewrite <- Hsecs, fmap_last, Hlast.
    + apply last_None in Hlast. subst b. by destruct Hrt.
Qed.

(** X8. In a schedule returned for trains with pairwise distinct ids the
    throughput is the number of trains whose route is not empty: a schedule
    is only returned when every train has run its whole route. *)
Theorem throughput_counts_routed_trains fromisoformat domain_sections now sc sched :
  generate_feasible_schedule fromisoformat domain_sections now sc = OK sched ->
  NoDup (tr_id <$> trains sc) ->
  objective sched !! "throughput"
    = Some (Int (Z.of_nat (length (filter (fun t => route t <> []) (trains sc))))).
Proof.
  intros (sorted & st & Hsort & Hrun & ->)%generate_OK Hnd. simpl.
  rewrite kpis_of_throughput. do 3 f_equal.
  apply trains_sorted_OK in Hsort as [Hperm _].
  apply schedule_trains_blocks in Hrun as (blocks & Hlegs & Hall). simpl in Hlegs.
  rewrite Hlegs, (finished_trains_routed _ sorted); [|done..|].
  - rewrite size_list_to_set, length_fmap; [done|].
    eapply sublist_NoDup; [exact Hnd|]. apply fmap_sublist, sublist_filter.
  - eapply Forall2_impl; [exact Hall | ]. by intros tr b [Hem _].
Qed.

(** A scenario of A and B over S1 and a train without a route: 2. *)
Lemma throughput_counts_routed_trains_witness :
  kpis_of [train_B; train_idle; train_A] legs_1 !! "throughput"
    = Some (Int (Z.of_nat (length (filter (fun t => route t <> [])
                                          [train_B; train_idle; train_A])))).
Proof.
  apply (throughput_counts_routed_trains sample_fromisoformat default_sections clock0
           (a_scenario [train_B; train_idle; train_A] ∅)
           {| scenario_id := Some "sc"; legs := legs_1;
              objective := kpis_of [train_B; train_idle; train_A] legs_1;
              sched_created_at := clock0 |}).
  - vm_compute. reflexivity.
  - simpl. compute_done.
Defined.

(** ** The exceptions of a call *)

(** X9. A call raises nothing but the Unknown-Section error, with status
    400 and for a section that some train's route names and the directory
    lacks, or a TypeError, OverflowError or ValueError of the sort and of
    the time and run-time arithmetic. *)
Theorem generate_raises_only fromisoformat domain_sections now sc e :
  generate_feasible_schedule fromisoformat domain_sections now sc = Raise e ->
  (exists tr sid, tr ∈ trains sc /\ sid ∈ route tr /\
     index_sections domain_sections !! sid = None /\
     e = HTTPException 400 ("Unknown section " +:+ sid))
  \/ arithmetic_error e.
Proof.
  unfold generate_feasible_schedule. intros H.
  apply bind_Raise in H as [H | (sorted & Hsort & H)].
  - right. apply py_sorted_Raise in H as ->. by left.
  - apply trains_sorted_OK in Hsort as [Hperm _].
    apply bind_Raise in H as [H | (st & _ & H)]; [|discriminate].
    apply schedule_trains_Raise in H
      as [(tr & sid & Hin & Hsid & Hnone & ->) | H]; [left | by right].
    exists tr, sid. by rewrite Hperm.
Qed.

(** Scenario 3 with the default directory: S9 is unknown. *)
Lemma generate_raises_only_witness :
  (exists tr sid, tr ∈ [train_A; a_train "B" 5 t0 ["S1"; "S9"]] /\ sid ∈ route tr /\
     index_sections default_sections !! sid = None /\
     HTTPException 400 "Unknown section S9" = HTTPException 400 ("Unknown section " +:+ sid))
  \/ arithmetic_error (HTTPException 400 "Unknown section S9").
Proof.
  apply (generate_raises_only sample_fromisoformat default_sections clock0
           (a_scenario [train_A; a_train "B" 5 t0 ["S1"; "S9"]] ∅)).
  vm_compute. reflexivity.
Defined.

(** ** The override table *)

Lemma fixed_loop_lookup fromisoformat (fixed : gmap string datetime) l k :
  Forall (fun e => exists kt, parse_entry fromisoformat e = OK kt) l ->
  fixed_loop fromisoformat fixed l !! k
  = match last (filter (fun kt => kt.1 = k) (parsed fromisoformat l)) with
    | Some kt => Some kt.2
    | None => fixed !! k
    end.
Proof.
  intros Hwf. revert fixed. induction Hwf as [|e l [[key t] He] _ IH]; intros fixed.
  - done.
  - simpl. unfold parsed in *. simpl. rewrite He. simpl. rewrite IH.
    rewrite filter_cons. simpl.
    destruct (decide (key = k)) as [-> | Hne].
    + rewrite last_cons. destruct (last (filter _ _)); [done|].
      by rewrite lookup_insert_eq.
    + destruct (last (filter _ _)); [done|]. by rewrite lookup_insert_ne.
Qed.

(** X10. When every entry of [fixed_enters] is well-formed, the table holds
    for each key the time of the last entry with that key, and no other
    key. *)
Theorem overrides_last_entry_wins fromisoformat ov l k :
  ov !! "fixed_enters" = Some (Iterable l) ->
  Forall (fun e => exists kt, parse_entry fromisoformat e = OK kt) l ->
  parse_fixed_overrides fromisoformat ov !! k
  = snd <$> last (filter (fun kt => kt.1 = k) (parsed fromisoformat l)).
Proof.
  intros Hov Hwf. unfold parse_fixed_overrides. rewrite Hov.
  rewrite (fixed_loop_lookup _ _ _ _ Hwf), lookup_empty.
  by destruct (last (filter _ _)).
Qed.

(** Two entries for (B, S1), at 08:00 and then at 08:30: 08:30 is kept. *)
Lemma overrides_last_entry_wins_witness :
  parse_fixed_overrides sample_fromisoformat
    (fixed_enters_of [an_override "B" "S1" "2024-01-01T08:00:00"; entry_B])
    !! override_key "B" "S1"
  = snd <$> last (filter (fun kt => kt.1 = override_key "B" "S1")
                    (parsed sample_fromisoformat
                       [an_override "B" "S1" "2024-01-01T08:00:00"; entry_B])).
Proof.
  apply (overrides_last_entry_wins sample_fromisoformat
           (fixed_enters_of [an_override "B" "S1" "2024-01-01T08:00:00"; entry_B])
           [an_override "B" "S1" "2024-01-01T08:00:00"; entry_B]
           (override_key "B" "S1")).
  - vm_compute. reflexivity.
  - repeat constructor; eexists; vm_compute; reflexivity.
Defined.

(** X11. The table of a list with a malformed entry is the table of the
    entries before it: the entries before are kept, the entries after are
    not read. *)
Theorem overrides_stop_at_malformed_entry fromisoformat ov l1 e l2 ex :
  parse_entry fromisoformat e = Raise ex ->
  parse_fixed_overrides fromisoformat (<["fixed_enters" := Iterable (l1 ++ e :: l2)]> ov)
  = parse_fixed_overrides fromisoformat (<["fixed_enters" := Iterable l1]> ov).
Proof.
  intros He. unfold parse_fixed_overrides. rewrite !lookup_insert_eq.
  by eapply fixed_loop_stops.
Qed.

(** A complete entry, a malformed one, a complete one. *)
Lemma overrides_stop_at_malformed_entry_witness :
  parse_fixed_overrides sample_fromisoformat
    (<["fixed_enters" := Iterable ([entry_B] ++ entry_malformed :: [entry_B])]> ∅)
  = parse_fixed_overrides sample_fromisoformat (<["fixed_enters" := Iterable [entry_B]]> ∅).
Proof.
  apply (overrides_stop_at_malformed_entry sample_fromisoformat ∅ [entry_B]
           entry_malformed [entry_B] KeyError).
  vm_compute. reflexivity.
Defined.

(** X12. The key of the override table tells (train, section) pairs apart
    as long as the train ids hold no colon. (With colons it does not: train
    "A::B" on section "C" and train "A" on section "B::C" share a key.) *)
Theorem override_key_injective t1 s1 t2 s2 :
  colon_free t1 -> colon_free t2 ->
  override_key t1 s1 = override_key t2 s2 -> t1 = t2 /\ s1 = s2.
Proof.
  unfold override_key. revert t2.
  induction t1 as [|c1 t1 IH]; intros [|c2 t2] H1 H2 Heq; cbn in *.
  - injection Heq as Heq. by subst.
  - injection Heq as Hc _. destruct H2 as [H2 _]. by destruct H2.
  - injection Heq as Hc _. destruct H1 as [H1 _]. by destruct H1.
  - injection Heq as -> Heq. destruct H1 as [_ H1], H2 as [_ H2].
    destruct (IH t2 H1 H2 Heq) as [-> ->]. done.
Qed.

Lemma override_key_injective_witness : "A" = "A" /\ "S1" = "S1".
Proof.
  apply (override_key_injective "A" "S1" "A" "S1").
  - simpl. split; [discriminate | done].
  - simpl. split; [discriminate | done].
  - reflexivity.
Defined.

Example override_key_collision : override_key "A::B" "C" = override_key "A" "B::C".
Proof. reflexivity. Qed.

(** ** [what_if] and [optimize] *)

Lemma delay_first_no_match tid minutes ts :
  (forall t, t ∈ ts -> tr_id t <> tid) -> delay_first tid minutes ts = OK ts.
Proof.
  induction ts as [|t ts IH]; intros Hno; simpl; [done|].
  destruct (String.eqb_spec (tr_id t) tid) as [Heq | _].
  - destruct (Hno t); [by left | done].
  - rewrite IH; [done|]. intros t' Ht'. apply Hno. by right.
Qed.

Lemma set_trains_same sc : set_trains sc (trains sc) = sc.
Proof. by destruct sc. Qed.

(** X13. A what-if request without an effective delay (no train id, an
    empty one, a delay of 0, or an id no train of the scenario carries)
    returns the schedule [optimize] returns for the scenario, or raises what
    it raises. *)
Theorem what_if_without_delay_is_optimize fromisoformat domain_sections now req :
  delay_train_id req = None \/ delay_train_id req = Some "" \/ delay_minutes req = 0 \/
  (forall t, t ∈ trains (wi_scenario req) -> Some (tr_id t) <> delay_train_id req) ->
  what_if fromisoformat domain_sections now req
  = match optimize fromisoformat domain_sections now (wi_scenario req) with
    | OK (sched, _) => OK (sched, "Scenario re-optimized with applied delay.")
    | Raise e => Raise e
    end.
Proof.
  intros Hcase.
  assert (Hsame : apply_delay req = OK (wi_scenario req)).
  { unfold apply_delay.
    destruct (delay_train_id req) as [tid|] eqn:Hid; [|done].
    destruct (String.eqb_spec tid "") as [-> | Hne]; [done|].
    destruct (Z.eqb_spec (delay_minutes req) 0) as [Hz | Hnz]; [done|]. simpl.
    destruct Hcase as [? | [[= ->] | [? | Hno]]]; [done.. | ].
    rewrite delay_first_no_match; [simpl; by rewrite set_trains_same|].
    intros t Ht Heq. apply (Hno t Ht). by rewrite Heq. }
  unfold what_if, optimize. rewrite Hsame. simpl.
  by destruct (generate_feasible_schedule _ _ _ _).
Qed.

(** A request with a delay of 15 minutes and no train id. *)
Lemma what_if_without_delay_is_optimize_witness :
  what_if sample_fromisoformat default_sections clock0 request_no_id
  = match optimize sample_fromisoformat default_sections clock0
            (wi_scenario request_no_id) with
    | OK (sched, _) => OK (sched, "Scenario re-optimized with applied delay.")
    | Raise e => Raise e
    end.
Proof.
  apply (what_if_without_delay_is_optimize sample_fromisoformat default_sections
           clock0 request_no_id).
  left. reflexivity.
Defined.

Lemma dt_add_minutes_undo a n b :
  dt_add_minutes a n = OK b -> dt_valid a -> dt_add_minutes b (- n) = OK a.
Proof.
  intros (Ho & Hw & _)%dt_add_minutes_OK [H0 Hmax]. unfold dt_add_minutes.
  destruct a as [w o], b as [w' o']. simpl in *. subst.
  replace (w + n * US_PER_MINUTE + - n * US_PER_MINUTE) with w by lia.
  by rewrite (proj2 (Z.leb_le 0 w)), (proj2 (Z.leb_le w DT_MAX)).
Qed.

Lemma delay_first_undo tid minutes ts ts' :
  delay_first tid minutes ts = OK ts' ->
  Forall (fun t => dt_valid (planned_departure t)) ts ->
  delay_first tid (- minutes) ts' = OK ts.
Proof.
  revert ts'. induction ts as [|t ts IH]; intros ts' H Hv; simpl in H.
  - by injection H as <-.
  - apply Forall_cons in Hv as [Ht Hv].
    destruct (String.eqb (tr_id t) tid) eqn:Heq.
    + bind_inv H. injection H as <-. simpl. rewrite Heq.
      rewrite (dt_add_minutes_undo _ _ _ Ha Ht). simpl. by destruct t.
    + bind_inv H. injection H as <-. simpl. rewrite Heq.
      by rewrite (IH _ Ha Hv).
Qed.

(** X14. A delay is undone by the opposite delay: when a what-if request
    on trains with representable planned departures yields a scenario, the
    request for the same train id and the opposite minutes on that scenario
    yields the scenario of the first request. *)
Theorem delay_round_trip req sc' :
  apply_delay req = OK sc' ->
  Forall (fun t => dt_valid (planned_departure t)) (trains (wi_scenario req)) ->
  apply_delay {| wi_scenario := sc'; delay_train_id := delay_train_id req;
                 delay_minutes := - delay_minutes req |} = OK (wi_scenario req).
Proof.
  unfold apply_delay. simpl. intros H Hv.
  destruct (delay_train_id req) as [tid|]; [|by injection H as <-].
  destruct (negb (String.eqb tid "")); simpl in *; [|by injection H as <-].
  destruct (Z.eqb_spec (delay_minutes req) 0) as [Hz | Hnz]; simpl in *.
  - injection H as <-. destruct (Z.eqb_spec (- delay_minutes req) 0); [done | lia].
  - destruct (Z.eqb_spec (- delay_minutes req) 0); [lia|]. simpl.
    bind_inv H. injection H as <-. simpl.
    rewrite (delay_first_undo _ _ _ _ Ha Hv). simpl.
    by destruct (wi_scenario req).
Qed.

(** B delayed by 15 minutes, then by -15 minutes: Scenario 1 again. *)
Lemma delay_round_trip_witness :
  apply_delay
    {| wi_scenario :=
         set_trains scenario_1 [set_planned_departure train_B (naive 2024 1 1 8 15); train_A];
       delay_train_id := delay_train_id request_delay_B;
       delay_minutes := - delay_minutes request_delay_B |}
  = OK (wi_scenario request_delay_B).
Proof.
  apply (delay_round_trip request_delay_B
           (set_trains scenario_1
              [set_planned_departure train_B (naive 2024 1 1 8 15); train_A])).
  - vm_compute. reflexivity.
  - repeat constructor; vm_compute; congruence.
Defined.

(** ** The section directory *)

(** X15. The index of the directory maps an id to the last section of the
    list under that id, and to nothing when the list holds none. *)
Theorem index_sections_lookup (l : list RailSection) (k : string) :
  index_sections l !! k = last (filter (fun s => sec_id s = k) l).
Proof.
  unfold index_sections. induction l as [|s l IH] using rev_ind; [done|].
  rewrite foldl_app, filter_app, last_app. simpl. rewrite filter_cons, filter_nil.
  destruct (decide (sec_id s = k)) as [<- | Hne]; simpl.
  - by rewrite lookup_insert_eq.
  - by rewrite lookup_insert_ne.
Qed.

(** X16. When the first train of the commitment order that has a route
    starts on a section the directory lacks, the call raises the
    Unknown-Section error of that section. *)
Theorem first_section_unknown fromisoformat domain_sections now sc s1 tr s2 sid :
  py_sorted sort_key_lt (trains sc) = OK (s1 ++ tr :: s2) ->
  Forall (fun t => route t = []) s1 ->
  head (route tr) = Some sid ->
  index_sections domain_sections !! sid = None ->
  generate_feasible_schedule fromisoformat domain_sections now sc
  = Raise (HTTPException 400 ("Unknown section " +:+ sid)).
Proof.
  intros Hsort Hs1 Hhead Hnone. unfold generate_feasible_schedule.
  rewrite Hsort. clear Hsort. simpl. unfold schedule_trains. rewrite foldlM_app.
  assert (Hskip : foldlM (schedule_train (index_sections domain_sections)
                    (parse_fixed_overrides fromisoformat (overrides sc)))
                    empty_state s1 = OK empty_state).
  { generalize empty_state. induction Hs1 as [|t s1 Ht _ IH]; intros st; [done|].
    simpl. rewrite schedule_train_empty_route by done. apply IH. }
  rewrite Hskip. simpl. unfold schedule_train.
  destruct (route tr) as [|sid' rt]; [done|]. injection Hhead as ->.
  simpl. by rewrite Hnone.
Qed.

(** A train without a route, then B starting on the unknown S9. *)
Lemma first_section_unknown_witness :
  generate_feasible_schedule sample_fromisoformat default_sections clock0
    (a_scenario [train_B9; train_idle] ∅)
  = Raise (HTTPException 400 ("Unknown section " +:+ "S9")).
Proof.
  apply (first_section_unknown sample_fromisoformat default_sections clock0
           (a_scenario [train_B9; train_idle] ∅) [train_idle] train_B9 []).
  - vm_compute. reflexivity.
  - by repeat constructor.
  - reflexivity.
  - vm_compute. reflexivity.
Defined.

(** ** The estimator on a section of no length *)

Lemma leb_10_positive a : PrimFloat.leb 10 a = true -> sf_positive (Prim2SF a).
Proof.
  rewrite leb_spec.
  assert (H10 : Prim2SF 10 = S754_finite false 5629499534213120 (-49)) by reflexivity.
  rewrite H10. by destruct (Prim2SF a) as [[]|[]| |[] m e].
Qed.

Lemma ltb_not_nan b a : PrimFloat.ltb b a = true -> Prim2SF b <> S754_nan.
Proof. rewrite ltb_spec. intros H Hb. by rewrite Hb in H. Qed.

Lemma py_min_not_nan a x : sf_positive (Prim2SF a) -> Prim2SF (py_min a x) <> S754_nan.
Proof.
  intros Ha. unfold py_min. destruct (PrimFloat.ltb x a) eqn:Hlt.
  - by eapply ltb_not_nan.
  - intros Hn. by rewrite Hn in Ha.
Qed.

Lemma py_max_1_sf_positive x :
  Prim2SF x <> S754_nan -> sf_positive (Prim2SF (py_max x 1)).
Proof.
  intros Hx. pose proof (py_max_1_positive x) as Hp.
  destruct (Prim2SF (py_max x 1)) as [[]|[]| |[] m e] eqn:Hm; try done.
  unfold py_max in Hm. destruct (PrimFloat.ltb x 1); [|done].
  by vm_compute in Hm.
Qed.

Lemma eqb_0_zero x : PrimFloat.eqb x 0 = true -> exists s, Prim2SF x = S754_zero s.
Proof.
  rewrite FloatAxioms.eqb_spec. change (Prim2SF 0) with (S754_zero false).
  destruct (Prim2SF x) as [s|[]| |[] m e]; try done. by exists s.
Qed.

(** X17. A section of length zero takes one minute, for every train: the
    estimator returns 1 whenever the length is 0 and the speed limit is at
    least 10. *)
Theorem zero_length_takes_one_minute section train :
  PrimFloat.eqb (length_km section) 0 = true ->
  PrimFloat.leb 10 (sec_max_speed_kmh section) = true ->
  compute_run_time_minutes section train = OK 1.
Proof.
  intros [s Hlen]%eqb_0_zero Hmax%leb_10_positive.
  unfold compute_run_time_minutes, py_int.
  pose proof (py_max_1_sf_positive _ (py_min_not_nan _
    (py_or (tr_max_speed_kmh train) (sec_max_speed_kmh section)) Hmax)) as Hdiv.
  rewrite mul_spec, div_spec, Hlen.
  assert (H60 : Prim2SF 60 = S754_finite false 8444249301319680 (-47)) by reflexivity.
  rewrite H60.
  by destruct (Prim2SF (py_max _ 1)) as [[]|[]| |[] m e], s.
Qed.

(** A section of 0 km at 60 km/h. *)
Lemma zero_length_takes_one_minute_witness :
  compute_run_time_minutes section_point train_A = OK 1.
Proof.
  apply (zero_length_takes_one_minute section_point train_A).
  - vm_compute. reflexivity.
  - vm_compute. reflexivity.
Defined.

(** ** No look-ahead *)

Lemma schedule_trains_prefix sections_map fixed_enters st ts st' :
  schedule_trains sections_map fixed_enters st ts = OK st' ->
  st_legs st `prefix_of` st_legs st'.
Proof.
  intros (blocks & -> & _)%schedule_trains_blocks. by eexists.
Qed.

(** X18. A train does not reach back: the legs of the trains committed
    before a train [t] are the same in the schedule of the scenario and in
    the schedule of the scenario without [t], as far as both are returned. *)
Theorem earlier_trains_unaffected
    fromisoformat domain_sections now sc l1 t l2 sched sched' :
  trains sc = l1 ++ t :: l2 ->
  generate_feasible_schedule fromisoformat domain_sections now sc = OK sched ->
  generate_feasible_schedule fromisoformat domain_sections now
    (set_trains sc (l1 ++ l2)) = OK sched' ->
  exists s1 s2 st1,
    py_sorted sort_key_lt (trains sc) = OK (s1 ++ t :: s2) /\
    schedule_trains (index_sections domain_sections)
      (parse_fixed_overrides fromisoformat (overrides sc)) empty_state s1 = OK st1 /\
    st_legs st1 `prefix_of` legs sched /\
    st_legs st1 `prefix_of` legs sched'.
Proof.
  intros Hts (sorted & st & Hsort & Hrun & ->)%generate_OK
         (sorted' & st' & Hsort' & Hrun' & ->)%generate_OK.
  simpl in *. rewrite Hts in Hsort.
  destruct (trains_sorted_without _ _ _ _ Hsort) as (s1 & s2 & -> & Hsort'').
  rewrite Hsort'' in Hsort'. injection Hsort' as <-.
  unfold schedule_trains in Hrun, Hrun'. rewrite foldlM_app in Hrun, Hrun'.
  apply bind_OK in Hrun as (st1 & Hs1 & Hrun).
  rewrite Hs1 in Hrun'. simpl in Hrun'.
  exists s1, s2, st1. rewrite Hts. split; [done|]. split; [done|].
  split; by eapply schedule_trains_prefix.
Qed.

(** Scenario 1 with and without B: the leg of A is the same. *)
Lemma earlier_trains_unaffected_witness :
  exists s1 s2 st1,
    py_sorted sort_key_lt (trains scenario_1) = OK (s1 ++ train_B :: s2) /\
    schedule_trains (index_sections default_sections)
      (parse_fixed_overrides sample_fromisoformat (overrides scenario_1))
      empty_state s1 = OK st1 /\
    st_legs st1 `prefix_of` legs_1 /\
    st_legs st1 `prefix_of` [a_leg "A" "S1" t0 (naive 2024 1 1 8 5)].
Proof.
  apply (earlier_trains_unaffected sample_fromisoformat default_sections clock0
           scenario_1 [] train_B [train_A]
           {| scenario_id := Some "sc"; legs := legs_1;
              objective := kpis_of [train_B; train_A] legs_1;
              sched_created_at := clock0 |}
           {| scenario_id := Some "sc";
              legs := [a_leg "A" "S1" t0 (naive 2024 1 1 8 5)];
              objective := kpis_of [train_A] [a_leg "A" "S1" t0 (naive 2024 1 1 8 5)];
              sched_created_at := clock0 |}).
  - reflexivity.
  - vm_compute. reflexivity.
  - vm_compute. reflexivity.
Defined.

(** ** A shifted leg is shifted by the headway, no more *)

Lemma schedule_section_shift sections_map fixed_enters tr st ct sid st' ct' :
  shift_inv fixed_enters st ->
  schedule_section sections_map fixed_enters tr (st, ct) sid = OK (st', ct') ->
  shift_inv fixed_enters st'.
Proof.
  intros [Hlast Hshift] H.
  apply schedule_section_OK in H
    as (sec & run_min & enter & Hsec & Hrun & Henter & Hexit & ->).
  split; simpl.
  - intros sid'. rewrite filter_app, filter_cons, filter_nil. simpl.
    destruct (decide (sid = sid')) as [<- | Hne].
    + by rewrite lookup_insert_eq, last_snoc.
    + rewrite lookup_insert_ne, app_nil_r by done. apply Hlast.
  - intros j l f Hj Hf.
    apply lookup_snoc_Some in Hj as [[Hlt Hj] | [-> <-]].
    + rewrite take_app_le by lia. by apply Hshift.
    + simpl in *. rewrite take_app_length. rewrite Hf in Henter. simpl in Henter.
      destruct (single_track sec); [|left; by injection Henter as <-].
      rewrite Hlast in Henter.
      destruct (last (filter _ (st_legs st))) as [l'|]; simpl in Henter;
        [|left; by injection Henter as <-].
      bind_inv Henter. bind_inv Henter.
      destruct a0; injection Henter as <-; [right | by left].
      by exists l'.
Qed.

Lemma schedule_trains_shift sections_map fixed_enters ts st st' :
  shift_inv fixed_enters st ->
  schedule_trains sections_map fixed_enters st ts = OK st' ->
  shift_inv fixed_enters st'.
Proof.
  apply (foldlM_invariant (shift_inv fixed_enters)).
  intros s tr s' _ Hinv H. unfold schedule_train in H. bind_inv H. injection H as <-.
  revert Ha.
  apply (foldlM_invariant (fun acc => shift_inv fixed_enters acc.1)); [|done].
  intros [s1 c1] sid [s2 c2] _. apply schedule_section_shift.
Qed.

(** X19. A leg with a fixed-enter override is entered at the fixed time,
    or else exactly the headway of 5 minutes after the latest earlier leg
    on its section was left. *)
Theorem override_shifted_by_headway_only
    fromisoformat domain_sections now sc sched (j : nat) l f :
  generate_feasible_schedule fromisoformat domain_sections now sc = OK sched ->
  legs sched !! j = Some l ->
  parse_fixed_overrides fromisoformat (overrides sc)
    !! override_key (train_id l) (section_id l) = Some f ->
  enter_time l = f \/
  exists l', last (filter (fun l' => section_id l' = section_id l)
                     (take j (legs sched))) = Some l' /\
             dt_add_minutes (exit_time l') SAFE_HEADWAY_MIN = OK (enter_time l).
Proof.
  intros (sorted & st & _ & Hrun & ->)%generate_OK Hj Hf. simpl in *.
  apply schedule_trains_shift in Hrun as [_ Hshift].
  - by eapply Hshift.
  - split; simpl.
    + intros sid. by rewrite lookup_empty.
    + intros i l' f' Hi. by rewrite lookup_nil in Hi.
Qed.

(** B, fixed at 08:00 on S1, follows A, which leaves S1 at 08:05: B enters
    at 08:10. *)
Lemma override_shifted_by_headway_only_witness :
  enter_time (a_leg "B" "S1" (naive 2024 1 1 8 10) (naive 2024 1 1 8 15)) = t0 \/
  exists l', last (filter (fun l' => section_id l'
                       = section_id (a_leg "B" "S1" (naive 2024 1 1 8 10) (naive 2024 1 1 8 15)))
                     (take 1 legs_1)) = Some l' /\
             dt_add_minutes (exit_time l') SAFE_HEADWAY_MIN
             = OK (enter_time (a_leg "B" "S1" (naive 2024 1 1 8 10) (naive 2024 1 1 8 15))).
Proof.
  apply (override_shifted_by_headway_only sample_fromisoformat default_sections clock0
           scenario_shift
           {| scenario_id := Some "sc"; legs := legs_1;
              objective := kpis_of [train_B; train_A] legs_1;
              sched_created_at := clock0 |} 1).
  - vm_compute. reflexivity.
  - reflexivity.
  - vm_compute. reflexivity.
Defined.
